(** * ESLib: typed publish/subscribe event system

    A shallow embedding of the header-only library under [include/]:
    [EventSystemUtils.h], [EventParametersParser.h], [EventSubscription.h],
    [EventSubscriberCollection.h], [EventRegistry.h], [EventQueue.h] and
    [EventSystem.h].

    Conventions of the embedding:
    - template argument packs [Args...] are explicit lists of C++ types;
    - objects on the free store live in a heap indexed by address, so that
      handles, queued events and the registry map alias one collection;
    - a member function that may throw returns an [outcome], which carries the
      state at the point of the return or of the throw;
    - the mutexes are not modelled: every operation runs to completion on the
      calling thread. *)

From Stdlib Require Import ZArith Ascii String.
From stdpp Require Import base numbers option list strings gmap.

Open Scope Z_scope.

(** ** C++ types and [std::decay] *)

Module CppType.

(** Integral types other than [bool] ([std::is_integral]). *)
Inductive IntKind :=
  | ik_char | ik_uchar | ik_short | ik_ushort
  | ik_int | ik_uint | ik_long | ik_ulong.

(** Floating point types ([std::is_floating_point]). *)
Inductive FloatKind := fk_float | fk_double | fk_long_double.

(** Unqualified object types.  A pointer or an array records the
    cv-qualifiers of what it points to or holds. *)
Inductive ObjType :=
  | t_bool
  | t_integral (k : IntKind)
  | t_floating (k : FloatKind)
  | t_string
  | t_class (name : string)
  | t_ptr (pointee_const pointee_volatile : bool) (pointee : ObjType)
  | t_array (elem_const elem_volatile : bool) (elem : ObjType) (extent : nat).

(** A type as it is written for a template argument: top-level
    cv-qualifiers and possibly a reference.  Function types are not
    modelled. *)
Record QualType := qual {
  q_const : bool;
  q_volatile : bool;
  q_type : ObjType
}.

Inductive ArgType :=
  | by_value (q : QualType)
  | lvalue_ref (q : QualType)
  | rvalue_ref (q : QualType).

#[global] Instance IntKind_eq_dec : EqDecision IntKind.
Proof. solve_decision. Defined.
#[global] Instance FloatKind_eq_dec : EqDecision FloatKind.
Proof. solve_decision. Defined.

#[global] Instance ObjType_eq_dec : EqDecision ObjType.
Proof. unfold EqDecision, Decision. decide equality; solve_decision. Defined.
#[global] Instance QualType_eq_dec : EqDecision QualType.
Proof. solve_decision. Defined.
#[global] Instance ArgType_eq_dec : EqDecision ArgType.
Proof. solve_decision. Defined.

(** [std::remove_reference]. *)
Definition remove_reference (a : ArgType) : QualType :=
  match a with
  | by_value q | lvalue_ref q | rvalue_ref q => q
  end.

(** [std::remove_cv]: drops the top-level qualifiers only. *)
Definition remove_cv (q : QualType) : ObjType := q_type q.

(** [std::decay]: the reference is removed; an array becomes a pointer to
    its element (qualifiers written on an array type qualify its elements);
    otherwise the top-level cv-qualifiers are removed. *)
Definition decay (a : ArgType) : ObjType :=
  let q := remove_reference a in
  match q_type q with
  | t_array c v elem _ => t_ptr (c || q_const q) (v || q_volatile q) elem
  | _ => remove_cv q
  end.

(** The plain type [T], and [T] with the qualifiers and reference of the
    usual spellings. *)
Definition plain (t : ObjType) : ArgType := by_value (qual false false t).
Definition const_ref (t : ObjType) : ArgType := lvalue_ref (qual true false t).

End CppType.

Export CppType.

(** ** Values, exceptions and the program state *)

(** Addresses of [SubscriberCollection] objects on the free store. *)
Abbreviation ptr := nat (only parsing).

(** Argument values carried by an event.  A floating point value is kept as
    the decimal number [mantissa * 10 ^ exponent] it was written as; its
    rounding to a binary format is not modelled.  [VOpaque] stands for values
    of pointer and class types. *)
Inductive Value :=
  | VBool (b : bool)
  | VInt (z : Z)
  | VFloat (mantissa exponent : Z)
  | VString (s : string)
  | VOpaque (n : nat).

#[global] Instance Value_eq_dec : EqDecision Value.
Proof. solve_decision. Defined.

(** The text of a thrown exception, kept structured:
    - [AlreadyRegistered name]: "The event named 'name' has already been
      registered!";
    - [ArgumentTypesMismatch name registered requested]: "The argument types
      for the event named 'name' are: ... but getHandlers was invoked with:
      ...";
    - [WrongNumberOfArguments expected got]: "Wrong number event arguments,
      expected ... but got ...";
    - the three parser messages. *)
Inductive What :=
  | AlreadyRegistered (name : string)
  | ArgumentTypesMismatch (name : string) (registered : list ObjType)
      (requested : list ArgType)
  | WrongNumberOfArguments (expected got : nat)
  | IllegalBooleanValue
  | IllegalIntegerValue
  | UnsupportedParameterType.

Inductive exn :=
  | invalid_argument (what : What)
  | logic_error (what : What).

#[global] Instance What_eq_dec : EqDecision What.
Proof. solve_decision. Defined.
#[global] Instance exn_eq_dec : EqDecision exn.
Proof. solve_decision. Defined.

(** [EventQueue::QueuedEvent<Args...>]: the collection to fire and the
    captured argument tuple.  The [next] link is the position in the chain. *)
Module QueuedEvent.
Record t := mk {
  handlerRef : ptr;
  args : list Value
}.
#[global] Instance eq_dec : EqDecision t.
Proof. solve_decision. Defined.
End QueuedEvent.

(** What an execution lets an observer see: an event of the queue being
    fired, and a subscriber of a collection being invoked with a tuple. *)
Inductive LogEntry :=
  | Fired (e : QueuedEvent.t)
  | Invoked (collection : ptr) (subscriberId : Z) (args : list Value).

#[global] Instance LogEntry_eq_dec : EqDecision LogEntry.
Proof. solve_decision. Defined.

(** [SubscriberCollectionBase::SubscriberIdType] is [unsigned int]. *)
Definition UINT_MAX : Z := 2 ^ 32 - 1.
Definition uint_wrap (z : Z) : Z := z mod 2 ^ 32.

Section WithWorld.

(** The state of the client program that handlers read and write. *)
Context {World : Type}.

(** A handler body, [std::function<void(Args...)>]: run on an argument
    tuple, it updates the client state and may enqueue events on the event
    queue (in the order given).  Handlers return normally and do not add or
    remove subscribers, which the library forbids while an event is being
    processed. *)
Definition Handler : Type :=
  list Value → World → World * list QueuedEvent.t.

(** [SubscriberCollection<Args...>::Subscriber]. *)
Record Subscriber := mkSubscriber {
  sub_id : Z;
  function : Handler
}.

(** [SubscriberCollection<Args...>]; [argTypes] is the template argument
    pack, which determines the dynamic type of the object. *)
Record SubscriberCollection := mkCollection {
  argTypes : list ObjType;
  handlers : list Subscriber;
  newIdCounter : Z
}.

(** The program state: the free store of collections, the registry map
    [EventRegistry::subscribersByEventName], the chain of queued events
    starting at [EventQueue::eventQueueHead] (its last element is
    [eventQueueTail]), the client state and the log. *)
Record State := mkState {
  heap : list SubscriberCollection;
  subscribersByEventName : gmap string ptr;
  eventQueueHead : list QueuedEvent.t;
  world : World;
  log : list LogEntry
}.

Definition set_heap (h : list SubscriberCollection) (st : State) : State :=
  mkState h (subscribersByEventName st) (eventQueueHead st) (world st) (log st).
Definition set_subscribersByEventName (m : gmap string ptr) (st : State) : State :=
  mkState (heap st) m (eventQueueHead st) (world st) (log st).
Definition set_eventQueueHead (q : list QueuedEvent.t) (st : State) : State :=
  mkState (heap st) (subscribersByEventName st) q (world st) (log st).
Definition set_world (w : World) (st : State) : State :=
  mkState (heap st) (subscribersByEventName st) (eventQueueHead st) w (log st).
Definition append_log (l : list LogEntry) (st : State) : State :=
  mkState (heap st) (subscribersByEventName st) (eventQueueHead st) (world st)
    (log st ++ l).

(** [SubscriberCollection()]: no handlers, [newIdCounter(0)]. *)
Definition new_collection (Args : list ObjType) : SubscriberCollection :=
  mkCollection Args [] 0.

(** Reading through a pointer.  Dereferencing an address that was never
    allocated is undefined behaviour; the model reads an empty collection
    there. *)
Definition deref (st : State) (p : ptr) : SubscriberCollection :=
  default (new_collection []) (heap st !! p).

(** Writing through a pointer (no effect on an unallocated address). *)
Definition store (p : ptr) (c : SubscriberCollection) (st : State) : State :=
  set_heap (<[p := c]> (heap st)) st.

(** [new SubscriberCollection<Args...>]: the object is placed at the next
    free address. *)
Definition alloc (c : SubscriberCollection) (st : State) : ptr * State :=
  (length (heap st), set_heap (heap st ++ [c]) st).

(** A call either returns a value or throws; both leave a state behind. *)
Inductive outcome (A : Type) :=
  | Returns (a : A) (st : State)
  | Throws (e : exn) (st : State).
#[global] Arguments Returns {A} a st.
#[global] Arguments Throws {A} e st.

End WithWorld.

#[global] Arguments Handler : clear implicits.
#[global] Arguments Subscriber : clear implicits.
#[global] Arguments SubscriberCollection : clear implicits.
#[global] Arguments State : clear implicits.
#[global] Arguments outcome : clear implicits.

(** ** Subscription handles and subscriber collections
    ([EventSubscription.h], [EventSubscriberCollection.h]) *)

(** [SubscriptionHandle]: a collection (or [NULL]) and a subscriber id.
    [ScopedSubscription] derives from it without adding members. *)
Record SubscriptionHandle := mkHandle {
  subscriberCollection : option ptr;
  subscriberId : Z
}.

#[global] Instance SubscriptionHandle_eq_dec : EqDecision SubscriptionHandle.
Proof. solve_decision. Defined.

(** [SubscriptionHandle()]: the empty handle. *)
Definition empty_handle : SubscriptionHandle := mkHandle None 0.

Section QueueTail.
Context {World : Type}.

(** [EventQueue::enqueue_tuple] (placed ahead of the collections, whose
    handlers call it): the new event becomes the head of an empty queue, and
    otherwise the successor of the tail. *)
Definition enqueue_tuple (handlerRef : ptr) (args : list Value)
    (st : State World) : State World :=
  let event := QueuedEvent.mk handlerRef args in
  match eventQueueHead st with
  | [] => set_eventQueueHead [event] st
  | _ :: _ => set_eventQueueHead (eventQueueHead st ++ [event]) st
  end.

(** Running the body of one subscriber of collection [this]: the invocation
    is logged, the body updates the client state, and its enqueue requests
    reach the queue one by one. *)
Definition run_handler (this : ptr) (args : list Value)
    (st : State World) (h : Subscriber World) : State World :=
  let st1 := append_log [Invoked this (sub_id h) args] st in
  let '(w, evs) := function h args (world st1) in
  foldl (λ s e, enqueue_tuple (QueuedEvent.handlerRef e) (QueuedEvent.args e) s)
    (set_world w st1) evs.

End QueueTail.

Module Collection.
Section WithWorld.
Context {World : Type}.

(** [SubscriberCollection::getHandlerCount]. *)
Definition getHandlerCount (this : ptr) (st : State World) : nat :=
  length (handlers (deref st this)).

(** [SubscriberCollection::addSubscriberImpl]: [newIdCounter++] on an
    [unsigned int], then [handlers.emplace_back]. *)
Definition addSubscriberImpl (this : ptr) (function : Handler World)
    (st : State World) : SubscriptionHandle * State World :=
  let c := deref st this in
  let newId := newIdCounter c in
  let c' := mkCollection (argTypes c)
              (handlers c ++ [mkSubscriber newId function])
              (uint_wrap (newId + 1)) in
  (mkHandle (Some this) newId, store this c' st).

(** [SubscriberCollection::addSubscriber]: every overload wraps the callable
    in a [std::function] and hands it to [addSubscriberImpl]. *)
Definition addSubscriber (this : ptr) (function : Handler World)
    (st : State World) : SubscriptionHandle * State World :=
  addSubscriberImpl this function st.

(** The loop of [removeHandler]: the first subscriber with the given id is
    erased and the search stops. *)
Fixpoint erase_first (handlerId : Z) (hs : list (Subscriber World))
    : list (Subscriber World) :=
  match hs with
  | [] => []
  | h :: rest =>
      if decide (sub_id h = handlerId) then rest
      else h :: erase_first handlerId rest
  end.

(** [SubscriberCollection::removeHandler]. *)
Definition removeHandler (this : ptr) (handlerId : Z)
    (st : State World) : State World :=
  let c := deref st this in
  store this
    (mkCollection (argTypes c) (erase_first handlerId (handlers c))
       (newIdCounter c)) st.

(** [SubscriberCollection::call]: every subscriber, in the order of the
    vector. *)
Definition call (this : ptr) (args : list Value)
    (st : State World) : State World :=
  foldl (run_handler this args) st (handlers (deref st this)).

(** [SubscriberCollection::call_tuple]: the same loop on an unpacked tuple. *)
Definition call_tuple (this : ptr) (args : list Value)
    (st : State World) : State World :=
  foldl (run_handler this args) st (handlers (deref st this)).

End WithWorld.
End Collection.

Section Handles.
Context {World : Type}.

(** [SubscriptionHandle::unsubscribe]: nothing on an empty handle; otherwise
    the subscriber is removed and the handle becomes empty.  The handle is an
    object of the caller, so its new value is returned with the state. *)
Definition unsubscribe (h : SubscriptionHandle) (st : State World)
    : SubscriptionHandle * State World :=
  match subscriberCollection h with
  | None => (h, st)
  | Some c =>
      (mkHandle None (subscriberId h),
       Collection.removeHandler c (subscriberId h) st)
  end.

(** [ScopedSubscription::~ScopedSubscription]. *)
Definition destroy (s : SubscriptionHandle) (st : State World) : State World :=
  snd (unsubscribe s st).

(** [ScopedSubscription::operator=(const SubscriptionHandle&)]: the
    subscription owned so far is unsubscribed, then the members of [handle]
    are copied. *)
Definition assign (this handle : SubscriptionHandle) (st : State World)
    : SubscriptionHandle * State World :=
  let '(_, st') := unsubscribe this st in
  (handle, st').

End Handles.

(** [ScopedSubscription] as [EventSubscriberCollection.h] defines it inline. *)
Module InlineSubscription.
Section WithWorld.
Context {World : Type}.

(** [ScopedSubscription::release]: [res = *this; *this = SubscriptionHandle();
    return res;].  The assignment of a [SubscriptionHandle] to [*this]
    selects [operator=(const SubscriptionHandle&)], the only assignment
    operator that needs no conversion.  The result is the returned handle and
    the new value of [*this]. *)
Definition release (this : SubscriptionHandle) (st : State World)
    : SubscriptionHandle * SubscriptionHandle * State World :=
  let res := this in
  let '(this', st') := assign this empty_handle st in
  (res, this', st').

End WithWorld.
End InlineSubscription.

(** [ScopedSubscription] as [EventSubscription.h] defines it. *)
Module EventSubscription.
Section WithWorld.
Context {World : Type}.

(** [SubscriptionHandle::clear]: only the collection pointer is reset. *)
Definition clear (this : SubscriptionHandle) : SubscriptionHandle :=
  mkHandle None (subscriberId this).

(** [ScopedSubscription::release]: [res = *this; clear(); return res;]. *)
Definition release (this : SubscriptionHandle) (st : State World)
    : SubscriptionHandle * SubscriptionHandle * State World :=
  let res := this in
  (res, clear this, st).

(** [ScopedSubscription(ScopedSubscription&& other)]: the base is
    initialised with [other.release()].  The result is the new object and the
    new value of [other]. *)
Definition move_construct (other : SubscriptionHandle) (st : State World)
    : SubscriptionHandle * SubscriptionHandle * State World :=
  release other st.

(** [ScopedSubscription::operator=(ScopedSubscription&& other)]:
    [unsubscribe(); *this = other.release();], for two distinct objects.  The
    result is the new values of [*this] and of [other]. *)
Definition move_assign (this other : SubscriptionHandle) (st : State World)
    : SubscriptionHandle * SubscriptionHandle * State World :=
  let '(this1, st1) := unsubscribe this st in
  let '(res, other', st2) := release other st1 in
  let '(this2, st3) := assign this1 res st2 in
  (this2, other', st3).

End WithWorld.
End EventSubscription.

(** ** The registry ([EventRegistry.h]) *)

(** [SubscriberCollectionDecay<Args...>] is
    [SubscriberCollection<typename std::decay<Args>::type...>]. *)
Definition SubscriberCollectionDecay (Args : list ArgType) : list ObjType :=
  decay <$> Args.

Module EventRegistry.
Section WithWorld.
Context {World : Type}.

(** [dynamic_cast<SubscriberCollectionDecay<Args...>*>(hcBase)]: the
    instantiations of [SubscriberCollection] do not derive from one another,
    so the cast yields the pointer exactly when the object was created with
    the same template arguments, and [NULL] otherwise. *)
Definition dynamic_cast (Args : list ArgType) (hcBase : ptr)
    (st : State World) : option ptr :=
  if decide (argTypes (deref st hcBase) = SubscriberCollectionDecay Args)
  then Some hcBase else None.

(** [EventRegistry::hasRegisteredEvent<Args...>]. *)
Definition hasRegisteredEvent (Args : list ArgType) (name : string)
    (st : State World) : bool :=
  match subscribersByEventName st !! name with
  | None => false
  | Some hcBase =>
      match dynamic_cast Args hcBase st with
      | None => false
      | Some _ => true
      end
  end.

(** The tail shared by [registerEvent] and [getOrRegister]: allocate the
    collection and [emplace] it under [name]. *)
Definition allocate_and_store (Args : list ArgType) (name : string)
    (st : State World) : outcome World ptr :=
  let '(hc, st1) := alloc (new_collection (SubscriberCollectionDecay Args)) st in
  Returns hc
    (set_subscribersByEventName (<[name := hc]> (subscribersByEventName st1)) st1).

(** [EventRegistry::registerEvent<Args...>]. *)
Definition registerEvent (Args : list ArgType) (name : string)
    (st : State World) : outcome World ptr :=
  match subscribersByEventName st !! name with
  | Some _ => Throws (invalid_argument (AlreadyRegistered name)) st
  | None => allocate_and_store Args name st
  end.

(** [EventRegistry::getSubscribers<Args...>]; [None] is the [NULL] result. *)
Definition getSubscribers (Args : list ArgType) (name : string)
    (st : State World) : outcome World (option ptr) :=
  match subscribersByEventName st !! name with
  | None => Returns None st
  | Some hcBase =>
      match dynamic_cast Args hcBase st with
      | None =>
          Throws (invalid_argument
                    (ArgumentTypesMismatch name (argTypes (deref st hcBase)) Args))
            st
      | Some hc => Returns (Some hc) st
      end
  end.

(** [EventRegistry::getSubscribers(std::string)], the overload without
    template arguments. *)
Definition getSubscribersBase (name : string) (st : State World) : option ptr :=
  subscribersByEventName st !! name.

(** [EventRegistry::getOrRegister<Args...>]. *)
Definition getOrRegister (Args : list ArgType) (name : string)
    (st : State World) : outcome World ptr :=
  match subscribersByEventName st !! name with
  | Some hcBase =>
      match dynamic_cast Args hcBase st with
      | None =>
          Throws (invalid_argument
                    (ArgumentTypesMismatch name (argTypes (deref st hcBase)) Args))
            st
      | Some hc => Returns hc st
      end
  | None => allocate_and_store Args name st
  end.

End WithWorld.
End EventRegistry.

(** ** The event queue ([EventQueue.h]) *)

Module EventQueue.
Section WithWorld.
Context {World : Type}.

(** [EventQueue::enqueue]: [std::make_tuple] of the arguments, then
    [enqueue_tuple]. *)
Definition enqueue (handlerRef : ptr) (args : list Value)
    (st : State World) : State World :=
  enqueue_tuple handlerRef args st.

(** [QueuedEvent::fire]: [handlerRef->call_tuple(args)]. *)
Definition fire (e : QueuedEvent.t) (st : State World) : State World :=
  Collection.call_tuple (QueuedEvent.handlerRef e) (QueuedEvent.args e)
    (append_log [Fired e] st).

(** The loop of [process] over the detached chain: fire [cur], then go on
    with [cur->next]. *)
Fixpoint fire_chain (cur : list QueuedEvent.t) (st : State World) : State World :=
  match cur with
  | [] => st
  | e :: next => fire_chain next (fire e st)
  end.

(** The first phase of [process], under the lock: head and tail are reset. *)
Definition detach (st : State World) : State World :=
  set_eventQueueHead [] st.

(** [EventQueue::process]. *)
Definition process (st : State World) : bool * State World :=
  match eventQueueHead st with
  | [] => (false, st)
  | cur => (true, fire_chain cur (detach st))
  end.

(** [EventQueue::processUntilEmpty] of [EventQueue.h]:
    [while (process());].  The loop need not end, so the model counts the
    calls of [process] it may make; [None] means that [fuel] calls did not
    empty the queue. *)
Fixpoint processUntilEmpty (fuel : nat) (st : State World) : option (State World) :=
  match fuel with
  | O => None
  | S fuel' =>
      let '(more, st') := process st in
      if more then processUntilEmpty fuel' st' else Some st'
  end.

(** Modelled from the spec: the overload
    [int EventQueue::processUntilEmpty(int maxProcessCalls)] that
    [EventSystem::processUntilEmpty] calls is not part of [EventQueue.h] as
    given (there the function takes no argument and returns nothing).  Per
    the specification it "repeatedly calls processAll until it returns empty
    or the batch limit is reached; returns the number of batches actually
    processed"; the limit is "unbounded" by default ([None] here).
    [processed] counts the batches done so far. *)
Fixpoint processUntilEmpty_limit (fuel : nat) (maxBatches : option nat)
    (processed : nat) (st : State World) : option (nat * State World) :=
  match fuel with
  | O => None
  | S fuel' =>
      if bool_decide (maxBatches = Some processed) then Some (processed, st)
      else
        let '(more, st') := process st in
        if more then processUntilEmpty_limit fuel' maxBatches (S processed) st'
        else Some (processed, st')
  end.

(** [EventQueue::processOne]. *)
Definition processOne (st : State World) : bool * State World :=
  match eventQueueHead st with
  | [] => (false, st)
  | toProcess :: next => (true, fire toProcess (set_eventQueueHead next st))
  end.

(** [EventQueue::size]. *)
Definition size (st : State World) : nat := length (eventQueueHead st).

(** [EventQueue::isEmpty]. *)
Definition isEmpty (st : State World) : bool :=
  match eventQueueHead st with [] => true | _ => false end.

(** [EventQueue::clear]. *)
Definition clear (st : State World) : State World := set_eventQueueHead [] st.

End WithWorld.
End EventQueue.

(** ** The facade ([EventSystem.h]) *)

Module EventSystem.
Section WithWorld.
Context {World : Type}.

(** [EventSystem::registerEvent<Args...>], which hides the function of the
    base class: [return getOrRegister<Args...>(name);]. *)
Definition registerEvent (Args : list ArgType) (name : string)
    (st : State World) : outcome World ptr :=
  EventRegistry.getOrRegister Args name st.

(** [EventSystem::subscribe]: every overload is [getOrRegister] followed by
    [addSubscriber]. *)
Definition subscribe (Args : list ArgType) (name : string)
    (function : Handler World) (st : State World)
    : outcome World SubscriptionHandle :=
  match EventRegistry.getOrRegister Args name st with
  | Throws ex st' => Throws ex st'
  | Returns e st' =>
      let '(h, st'') := Collection.addSubscriber e function st' in
      Returns h st''
  end.

(** [EventSystem::publish<Args...>]. *)
Definition publish (Args : list ArgType) (name : string) (args : list Value)
    (st : State World) : outcome World bool :=
  match EventRegistry.getSubscribers Args name st with
  | Throws ex st' => Throws ex st'
  | Returns None st' => Returns false st'
  | Returns (Some e) st' => Returns true (EventQueue.enqueue e args st')
  end.

(** [EventSystem::call<Args...>]. *)
Definition call (Args : list ArgType) (name : string) (args : list Value)
    (st : State World) : outcome World bool :=
  match EventRegistry.getSubscribers Args name st with
  | Throws ex st' => Throws ex st'
  | Returns None st' => Returns false st'
  | Returns (Some e) st' => Returns true (Collection.call e args st')
  end.

(** [EventSystem::process]: the result of the queue is dropped. *)
Definition process (st : State World) : State World :=
  snd (EventQueue.process st).

(** The batch limit an [int maxProcessCalls] stands for: the default [-1]
    (any negative value) is the unbounded limit of the specification. *)
Definition batch_limit (maxProcessCalls : Z) : option nat :=
  if maxProcessCalls <? 0 then None else Some (Z.to_nat maxProcessCalls).

(** [EventSystem::processUntilEmpty(int maxProcessCalls = -1)]:
    [return dynamicQueue.processUntilEmpty(maxProcessCalls);]. *)
Definition processUntilEmpty (fuel : nat) (maxProcessCalls : Z)
    (st : State World) : option (Z * State World) :=
  match EventQueue.processUntilEmpty_limit fuel (batch_limit maxProcessCalls) 0 st with
  | None => None
  | Some (n, st') => Some (Z.of_nat n, st')
  end.

End WithWorld.
End EventSystem.

(** ** Parameter parsing ([EventParametersParser.h]) *)

(** [enum class ParameterType]. *)
Inductive ParameterType := STRING | BOOL | INT | DOUBLE | UNSUPPORTED.

#[global] Instance ParameterType_eq_dec : EqDecision ParameterType.
Proof. solve_decision. Defined.

(** Formatted input of the standard library, [is >> result] on a fresh
    [std::istringstream] (flags [skipws | dec], classic locale), as far as
    the parsers use it.  The result is [None] when the extraction sets
    [failbit], which is what [!(is >> result)] tests. *)
Module Stream.

Definition code (c : ascii) : Z := Z.of_N (Ascii.N_of_ascii c).

Definition isdigit (c : ascii) : bool := (48 <=? code c) && (code c <=? 57).

(** [isspace] in the classic locale: space and the controls 9 to 13. *)
Definition isspace (c : ascii) : bool :=
  (code c =? 32) || ((9 <=? code c) && (code c <=? 13)).

Definition digit_value (c : ascii) : Z := code c - 48.

(** The sentry skips leading whitespace. *)
Fixpoint skipws (s : string) : string :=
  match s with
  | EmptyString => EmptyString
  | String c rest => if isspace c then skipws rest else s
  end.

(** An optional sign; the result tells whether it was a minus. *)
Definition sign (s : string) : bool * string :=
  match s with
  | String c rest =>
      if bool_decide (c = "-"%char) then (true, rest)
      else if bool_decide (c = "+"%char) then (false, rest)
      else (false, s)
  | EmptyString => (false, s)
  end.

(** The longest run of decimal digits at the start of [s], accumulated onto
    [acc]: the value, the number of digits and the rest of the input. *)
Fixpoint digits (acc : Z) (count : nat) (s : string) : Z * nat * string :=
  match s with
  | String c rest =>
      if isdigit c then digits (10 * acc + digit_value c) (S count) rest
      else (acc, count, s)
  | EmptyString => (acc, count, s)
  end.

Definition INT_MIN : Z := - 2 ^ 31.
Definition INT_MAX : Z := 2 ^ 31 - 1.

(** [is >> result] for [int result]: whitespace, an optional sign and a
    non-empty run of digits; the input after the digits is left in the
    stream.  No digit, or a value outside [int], sets [failbit]. *)
Definition extract_int (s : string) : option Z :=
  match skipws s with
  | EmptyString => None
  | s1 =>
      let '(neg, s2) := sign s1 in
      let '(magnitude, count, _) := digits 0 0 s2 in
      let v := if neg then - magnitude else magnitude in
      if bool_decide (count = 0%nat) then None
      else if (INT_MIN <=? v) && (v <=? INT_MAX) then Some v
      else None
  end.

(** An optional exponent after a mantissa: [e] or [E], an optional sign and
    digits.  [None] when the exponent has no digit: the characters were taken
    into the field, and the conversion of the field then fails. *)
Definition exponent (s : string) : option Z :=
  match s with
  | String c rest =>
      if bool_decide (c = "e"%char ∨ c = "E"%char) then
        let '(neg, s1) := sign rest in
        let '(e, count, _) := digits 0 0 s1 in
        if bool_decide (count = 0%nat) then None
        else Some (if neg then - e else e)
      else Some 0
  | EmptyString => Some 0
  end.

(** An optional decimal point and the digits after it, accumulated onto the
    digits [m1] read before the point. *)
Definition fraction (m1 : Z) (s : string) : Z * nat * string :=
  match s with
  | String c rest =>
      if bool_decide (c = "."%char) then digits m1 0 rest else (m1, 0%nat, s)
  | EmptyString => (m1, 0%nat, s)
  end.

(** The least magnitude that [strtod] rounds to infinity:
    [2 ^ 1024 - 2 ^ 970]. *)
Definition DBL_OVERFLOW : Z := 2 ^ 1024 - 2 ^ 970.

(** Whether [mantissa * 10 ^ exponent] overflows [double]. *)
Definition overflows (mantissa exponent : Z) : bool :=
  if 0 <=? exponent then DBL_OVERFLOW <=? Z.abs mantissa * 10 ^ exponent
  else DBL_OVERFLOW * 10 ^ (- exponent) <=? Z.abs mantissa.

(** [is >> result] for [double result]: whitespace, an optional sign, digits
    with at most one decimal point among them, and an optional exponent; the
    input after that field is left in the stream.  A field without a mantissa
    digit, an exponent without a digit, or an overflow, sets [failbit].  The
    value is the decimal number read. *)
Definition extract_double (s : string) : option (Z * Z) :=
  match skipws s with
  | EmptyString => None
  | s1 =>
      let '(neg, s2) := sign s1 in
      let '(m1, n1, s3) := digits 0 0 s2 in
      let '(m2, n2, s4) := fraction m1 s3 in
      if bool_decide ((n1 + n2)%nat = 0%nat) then None
      else
        match exponent s4 with
        | None => None
        | Some e =>
            let mantissa := if neg then - m2 else m2 in
            let exponent := e - Z.of_nat n2 in
            if overflows mantissa exponent then None
            else Some (mantissa, exponent)
        end
  end.

End Stream.

Module ParameterValueParser.

(** [ParameterValueParser<T>::valueType].  The specialisation for [bool] is
    explicit, so it takes precedence over the one for integral types. *)
Definition valueType (T : ObjType) : ParameterType :=
  match T with
  | t_string => STRING
  | t_bool => BOOL
  | t_integral _ => INT
  | t_floating _ => DOUBLE
  | _ => UNSUPPORTED
  end.

(** [tolower] in the classic locale. *)
Definition tolower (c : ascii) : ascii :=
  if (65 <=? Stream.code c) && (Stream.code c <=? 90)
  then Ascii.ascii_of_N (Ascii.N_of_ascii c + 32) else c.

(** The loop of [matches], once the sizes are known to agree. *)
Fixpoint matches_from (value expected : string) : bool :=
  match value, expected with
  | String v value', String e expected' =>
      if bool_decide (tolower v = e) then matches_from value' expected'
      else false
  | _, _ => true
  end.

(** [ParameterValueParser<bool>::matches]. *)
Definition matches (value expected : string) : bool :=
  if bool_decide (String.length value ≠ String.length expected) then false
  else matches_from value expected.

(** The conversion of the parsed [int] to the integral parameter type [T]
    (LP64, [char] signed): modular for the narrower and the unsigned types. *)
Definition convert_int (k : IntKind) (z : Z) : Z :=
  match k with
  | ik_char => (z + 2 ^ 7) mod 2 ^ 8 - 2 ^ 7
  | ik_uchar => z mod 2 ^ 8
  | ik_short => (z + 2 ^ 15) mod 2 ^ 16 - 2 ^ 15
  | ik_ushort => z mod 2 ^ 16
  | ik_int => z
  | ik_uint => z mod 2 ^ 32
  | ik_long => z
  | ik_ulong => z mod 2 ^ 64
  end.

(** [ParameterValueParser<T>::parse], by specialisation.  For an integral
    [T] the function parses an [int], for a floating point [T] a [double]. *)
Definition parse (T : ObjType) (stringValue : string) : exn + Value :=
  match T with
  | t_string => inr (VString stringValue)
  | t_bool =>
      if matches stringValue "true" then inr (VBool true)
      else if matches stringValue "false" then inr (VBool false)
      else inl (invalid_argument IllegalBooleanValue)
  | t_integral k =>
      match Stream.extract_int stringValue with
      | None => inl (invalid_argument IllegalIntegerValue)
      | Some result => inr (VInt (convert_int k result))
      end
  | t_floating _ =>
      match Stream.extract_double stringValue with
      | None => inl (invalid_argument IllegalIntegerValue)
      | Some (m, e) => inr (VFloat m e)
      end
  | _ => inl (logic_error UnsupportedParameterType)
  end.

End ParameterValueParser.

Module EventParametersParser.
Section WithWorld.
Context {World : Type}.

(** [EventParametersParser<Args...>::getParameterCount]. *)
Definition getParameterCount (Args : list ObjType) : nat := length Args.

(** [EventParametersParser<Args...>::getParameterType]; reading past the
    array is undefined, and [UNSUPPORTED] in the model. *)
Definition getParameterType (Args : list ObjType) (parameterIdx : nat)
    : ParameterType :=
  default UNSUPPORTED (ParameterValueParser.valueType <$> Args !! parameterIdx).

(** [EventParametersParserBase::canParseArgs]. *)
Definition canParseArgs (Args : list ObjType) : bool :=
  forallb (λ T, negb (bool_decide (ParameterValueParser.valueType T = UNSUPPORTED)))
    Args.

(** [parseArgsImpl]: one [parse] per parameter.  The order in which the
    arguments of [std::make_tuple] are evaluated is unspecified; the model
    goes from left to right, which only decides whose exception is seen when
    several strings are malformed. *)
Fixpoint parseArgsImpl (Args : list ObjType) (parameterStrings : list string)
    : exn + list Value :=
  match Args, parameterStrings with
  | T :: Args', s :: strings' =>
      match ParameterValueParser.parse T s with
      | inl ex => inl ex
      | inr v =>
          match parseArgsImpl Args' strings' with
          | inl ex => inl ex
          | inr vs => inr (v :: vs)
          end
      end
  | _, _ => inr []
  end.

(** [EventParametersParser<Args...>::parseArgs]. *)
Definition parseArgs (Args : list ObjType) (parameterStrings : list string)
    : exn + list Value :=
  if bool_decide (length parameterStrings ≠ length Args) then
    inl (invalid_argument
           (WrongNumberOfArguments (length Args) (length parameterStrings)))
  else parseArgsImpl Args parameterStrings.

(** [EventParametersParser<Args...>::callEvent] of the parser that
    [subscriberCollection] owns. *)
Definition callEvent (subscriberCollection : ptr)
    (parameterStrings : list string) (st : State World) : outcome World unit :=
  match parseArgs (argTypes (deref st subscriberCollection)) parameterStrings with
  | inl ex => Throws ex st
  | inr tuple => Returns tt (Collection.call_tuple subscriberCollection tuple st)
  end.

(** [EventParametersParser<Args...>::enqueueEvent]. *)
Definition enqueueEvent (subscriberCollection : ptr)
    (parameterStrings : list string) (st : State World) : outcome World unit :=
  match parseArgs (argTypes (deref st subscriberCollection)) parameterStrings with
  | inl ex => Throws ex st
  | inr tuple => Returns tt (enqueue_tuple subscriberCollection tuple st)
  end.

End WithWorld.
End EventParametersParser.

(** * Vocabulary of the statements *)

Section Vocabulary.
Context {World : Type}.
Implicit Types (st : State World) (Args : list ArgType) (name : string)
  (e : QueuedEvent.t) (p : ptr) (s : Subscriber World)
  (args : list Value) (cur : list QueuedEvent.t)
  (pre post : list (Subscriber World)).

(** The topic [name] is bound to the collection at [hc], which was created
    for the (decayed) signature [Args]. *)
Definition registered_with st name (hc : ptr) Args : Prop :=
  subscribersByEventName st !! name = Some hc
  ∧ argTypes (deref st hc) = SubscriberCollectionDecay Args.

(** Whether a type is an array type, which has no top-level qualifiers of
    its own. *)
Definition is_array (t : ObjType) : bool :=
  match t with t_array _ _ _ _ => true | _ => false end.

(** Two written types that agree once the reference and the top-level
    qualifiers are removed (the qualifiers of an array type belong to its
    elements and must agree). *)
Definition same_up_to_ref_cv (a b : ArgType) : Prop :=
  q_type (remove_reference a) = q_type (remove_reference b)
  ∧ (is_array (q_type (remove_reference a)) = true →
     q_const (remove_reference a) = q_const (remove_reference b)
     ∧ q_volatile (remove_reference a) = q_volatile (remove_reference b)).

(** The log entries of calling the subscribers [hs] of collection [p]. *)
Definition invocations p args (hs : list (Subscriber World)) : list LogEntry :=
  (λ h, Invoked p (sub_id h) args) <$> hs.

(** The log entries of firing [e] in a state whose heap is that of [st]. *)
Definition event_trace st e : list LogEntry :=
  Fired e :: invocations (QueuedEvent.handlerRef e) (QueuedEvent.args e)
               (handlers (deref st (QueuedEvent.handlerRef e))).

(** The events that a log reports as fired, in order. *)
Definition fired_events (l : list LogEntry) : list QueuedEvent.t :=
  omap (λ x, match x with Fired e => Some e | Invoked _ _ _ => None end) l.

(** What the subscribers [hs], called in turn on [args] from the client
    state [w], ask to enqueue, and the client state they leave. *)
Fixpoint requested_by (hs : list (Subscriber World)) args (w : World)
    : World * list QueuedEvent.t :=
  match hs with
  | [] => (w, [])
  | h :: hs' =>
      let '(w1, evs) := function h args w in
      let '(w2, more) := requested_by hs' args w1 in
      (w2, evs ++ more)
  end.

(** The same for the firing of a whole chain [cur], with the collections
    of [st]. *)
Fixpoint requested_during st cur (w : World) : World * list QueuedEvent.t :=
  match cur with
  | [] => (w, [])
  | e :: next =>
      let '(w1, evs) :=
        requested_by (handlers (deref st (QueuedEvent.handlerRef e)))
          (QueuedEvent.args e) w in
      let '(w2, more) := requested_during st next w1 in
      (w2, evs ++ more)
  end.

(** Two states with the same collections and the same registry map. *)
Definition same_objects st st' : Prop :=
  heap st' = heap st ∧ subscribersByEventName st' = subscribersByEventName st.

(** The state after [n] consecutive calls of [process]. *)
Fixpoint batches (n : nat) st : State World :=
  match n with
  | O => st
  | S n' => batches n' (EventQueue.process st).2
  end.

(** The handle [h] refers to the subscriber [s] of the collection at [p],
    which stands between [pre] and [post] in the vector and whose id no other
    subscriber of the collection has. *)
Definition refers_to st (h : SubscriptionHandle) p pre s post : Prop :=
  subscriberCollection h = Some p
  ∧ subscriberId h = sub_id s
  ∧ (p < length (heap st))%nat
  ∧ handlers (deref st p) = pre ++ s :: post
  ∧ sub_id s ∉ sub_id <$> (pre ++ post).


(** Ids are fresh while the counter is above every id in use and below
    [UINT_MAX]; [addSubscriber] keeps it that way. *)
Definition ids_below_counter (c : SubscriberCollection World) : Prop :=
  ∀ s, s ∈ handlers c → 0 ≤ sub_id s < newIdCounter c.

End Vocabulary.

(** A character that cannot continue a numeric field, wherever the field
    stands: no whitespace, no digit, none of [. e E + -]. *)
Definition ends_number (c : ascii) : bool :=
  negb (Stream.isspace c) && negb (Stream.isdigit c)
  && negb (bool_decide (c ∈ ["."; "e"; "E"; "+"; "-"]%char)).

Section MoreVocabulary.
Context {World : Type}.
Implicit Types (st : State World) (p : ptr).


(** The state after a sequence of calls of [enqueue]. *)
Definition enqueue_all (evs : list QueuedEvent.t) st : State World :=
  foldl (λ s e, EventQueue.enqueue (QueuedEvent.handlerRef e)
                  (QueuedEvent.args e) s) st evs.

(** The state after adding the handlers [fs], in order, to the collection
    at [p]. *)
Definition addSubscriber_all p (fs : list (Handler World)) st : State World :=
  foldl (λ s f, (Collection.addSubscriber p f s).2) st fs.

(** The handlers [fs] as subscribers with consecutive ids from [c]. *)
Fixpoint numbered (c : Z) (fs : list (Handler World)) : list (Subscriber World) :=
  match fs with
  | [] => []
  | f :: fs' => mkSubscriber c f :: numbered (c + 1) fs'
  end.

(** Every collection that the registry names has been allocated. *)
Definition registry_wf st : Prop :=
  ∀ name hc, subscribersByEventName st !! name = Some hc →
             (hc < length (heap st))%nat.

(** No collection is registered under two names. *)
Definition registry_inj st : Prop :=
  ∀ name1 name2 hc,
    subscribersByEventName st !! name1 = Some hc →
    subscribersByEventName st !! name2 = Some hc → name1 = name2.

End MoreVocabulary.

(** The values of an integral type (LP64, [char] signed). *)
Definition IntKind_min (k : IntKind) : Z :=
  match k with
  | ik_char => - 2 ^ 7
  | ik_short => - 2 ^ 15
  | ik_int => - 2 ^ 31
  | ik_long => - 2 ^ 63
  | ik_uchar | ik_ushort | ik_uint | ik_ulong => 0
  end.

Definition IntKind_max (k : IntKind) : Z :=
  match k with
  | ik_char => 2 ^ 7 - 1
  | ik_uchar => 2 ^ 8 - 1
  | ik_short => 2 ^ 15 - 1
  | ik_ushort => 2 ^ 16 - 1
  | ik_int => 2 ^ 31 - 1
  | ik_uint => 2 ^ 32 - 1
  | ik_long => 2 ^ 63 - 1
  | ik_ulong => 2 ^ 64 - 1
  end.

(** Whether a string consists of whitespace only. *)
Fixpoint all_space (s : string) : bool :=
  match s with
  | EmptyString => true
  | String c rest => Stream.isspace c && all_space rest
  end.

(** A string with [tolower] applied to every character. *)
Fixpoint lower (s : string) : string :=
  match s with
  | EmptyString => EmptyString
  | String c rest => String (ParameterValueParser.tolower c) (lower rest)
  end.

(** ** Example programs

    The states and handlers used to exercise the statements below at concrete
    inputs.  The client state is a counter. *)

Module Examples.

Definition int_ : ObjType := t_integral ik_int.
Definition double_ : ObjType := t_floating fk_double.
Definition char_ : ObjType := t_integral ik_char.

(** [ES::EventSystem es;] *)
Definition es0 : State nat := mkState [] ∅ [] 0%nat [].

(** A handler that counts its invocations. *)
Definition counting : Handler nat := λ _ w, (S w, []).

(** A handler on collection [target] that publishes its own arguments to
    [target] again while the counter is below [bound]. *)
Definition republishing (target : ptr) (bound : nat) : Handler nat :=
  λ args w,
    (S w, if bool_decide (w < bound)%nat then [QueuedEvent.mk target args] else []).

(** The state of a call that returned, and the initial state otherwise. *)
Definition state_of {A} (o : outcome nat A) : State nat :=
  match o with Returns _ st => st | Throws _ st => st end.

(** [es.registerEvent<int>("TestEvent");] *)
Definition es1 : State nat :=
  state_of (EventSystem.registerEvent [plain int_] "TestEvent" es0).

(** ... [es.subscribe("TestEvent", counting);] *)
Definition es2 : State nat :=
  state_of (EventSystem.subscribe [plain int_] "TestEvent" counting es1).

(** The handle that this [subscribe] returned. *)
Definition handle2 : SubscriptionHandle := mkHandle (Some 0%nat) 0.

(** ... [es.registerEvent<std::string>("StrEvent");] and a subscriber of it
    that publishes to "TestEvent" (at address 0) once. *)
Definition es3 : State nat :=
  state_of (EventSystem.subscribe [plain t_string] "StrEvent"
              (λ _ w, (S w, [QueuedEvent.mk 0%nat [VInt 4]])) es2).

(** ... [es.publish("TestEvent", 1); es.publish<std::string>("StrEvent", "a");
    es.publish("TestEvent", 3);] *)
Definition es4 : State nat :=
  state_of (EventSystem.publish [plain int_] "TestEvent" [VInt 3]
    (state_of (EventSystem.publish [plain t_string] "StrEvent" [VString "a"]
      (state_of (EventSystem.publish [plain int_] "TestEvent" [VInt 1] es3))))).

(** [es.registerEvent<char*>("ConstEvent");] on a fresh registry. *)
Definition const0 : State nat :=
  state_of (EventRegistry.registerEvent [plain (t_ptr false false char_)]
              "ConstEvent" es0).

(** A second program: "Loop" has one subscriber, which publishes the event
    again until it has run three times; one event is published. *)
Definition loop0 : State nat :=
  state_of (EventSystem.publish [plain int_] "Loop" [VInt 0]
    (state_of (EventSystem.subscribe [plain int_] "Loop" (republishing 0 3) es0))).

(** A third program, after the test of the library: "event3" takes an [int]
    and a [double], "event4" a [bool]; each has a counting subscriber. *)
Definition parsers0 : State nat :=
  state_of (EventSystem.subscribe [plain t_bool] "event4" counting
    (state_of (EventSystem.subscribe [plain int_; plain double_] "event3"
                 counting es0))).

(** A handler that adds [k] to the counter of the client. *)
Definition adding (k : nat) : Handler nat := λ _ w, ((w + k)%nat, []).

(** The first program with two more subscribers of "TestEvent":
    [es.subscribe("TestEvent", adding 10); es.subscribe("TestEvent", adding 100);]
    after [es2]. *)
Definition es5 : State nat :=
  state_of (EventSystem.subscribe [plain int_] "TestEvent" (adding 100)
    (state_of (EventSystem.subscribe [plain int_] "TestEvent" (adding 10) es2))).


End Examples.

(** * Properties *)

(** ** Heap and state accessors *)

Section StateFacts.
Context {World : Type}.
Implicit Types (st : State World) (c : SubscriberCollection World) (p : ptr).

Lemma deref_alloc c st :
  deref (alloc c st).2 (alloc c st).1 = c.
Proof.
  unfold deref, alloc; simpl.
  by rewrite lookup_app_r, Nat.sub_diag by lia.
Qed.

Lemma deref_store_eq p c st :
  (p < length (heap st))%nat → deref (store p c st) p = c.
Proof.
  intros Hp. unfold deref, store; simpl. by rewrite list_lookup_insert_eq.
Qed.

Lemma deref_store_ne p q c st :
  p ≠ q → deref (store p c st) q = deref st q.
Proof.
  intros Hne. unfold deref, store; simpl. by rewrite list_lookup_insert_ne.
Qed.

Lemma store_dangling p c st :
  (length (heap st) ≤ p)%nat → store p c st = st.
Proof.
  intros Hp. unfold store, set_heap. rewrite list_insert_ge by lia.
  by destruct st.
Qed.

Lemma store_deref p st : store p (deref st p) st = st.
Proof.
  unfold store, deref, set_heap.
  destruct (heap st !! p) as [c|] eqn:E; simpl.
  - rewrite list_insert_id by done. by destruct st.
  - apply lookup_ge_None in E. rewrite list_insert_ge by lia. by destruct st.
Qed.


End StateFacts.

(** ** The registry *)

Section RegistryFacts.
Context {World : Type}.
Implicit Types (st : State World) (Args : list ArgType) (name : string).

Lemma decay_same_up_to_ref_cv a b :
  same_up_to_ref_cv a b → decay a = decay b.
Proof.
  unfold same_up_to_ref_cv, decay, remove_cv. intros [Ht Hq]. rewrite <- Ht.
  destruct (q_type (remove_reference a)); try done.
  destruct Hq as [-> ->]; done.
Qed.

Lemma SubscriberCollectionDecay_same Args Args' :
  Forall2 same_up_to_ref_cv Args' Args →
  SubscriberCollectionDecay Args' = SubscriberCollectionDecay Args.
Proof.
  unfold SubscriberCollectionDecay.
  induction 1 as [|a b ? ? Hab]; simpl; [done|].
  f_equal; [by apply decay_same_up_to_ref_cv | done].
Qed.

Lemma dynamic_cast_Some Args hc st :
  argTypes (deref st hc) = SubscriberCollectionDecay Args →
  EventRegistry.dynamic_cast Args hc st = Some hc.
Proof. intros H. unfold EventRegistry.dynamic_cast. by rewrite decide_True. Qed.

Lemma dynamic_cast_None Args hc st :
  argTypes (deref st hc) ≠ SubscriberCollectionDecay Args →
  EventRegistry.dynamic_cast Args hc st = None.
Proof. intros H. unfold EventRegistry.dynamic_cast. by rewrite decide_False. Qed.

Lemma allocate_and_store_registers Args name st hc st' :
  EventRegistry.allocate_and_store Args name st = Returns hc st' →
  registered_with st' name hc Args ∧ hc = length (heap st).
Proof.
  unfold EventRegistry.allocate_and_store, alloc. intros [= <- <-].
  repeat split; simpl.
  - apply lookup_insert_eq.
  - unfold deref; simpl. by rewrite lookup_app_r, Nat.sub_diag by lia.
Qed.

Lemma registerEvent_registers Args name st hc st' :
  EventRegistry.registerEvent Args name st = Returns hc st' →
  registered_with st' name hc Args.
Proof.
  unfold EventRegistry.registerEvent.
  destruct (subscribersByEventName st !! name); [done|].
  intros H. by apply allocate_and_store_registers in H as [? _].
Qed.

Lemma getOrRegister_registers Args name st hc st' :
  EventRegistry.getOrRegister Args name st = Returns hc st' →
  registered_with st' name hc Args.
Proof.
  unfold EventRegistry.getOrRegister, EventRegistry.dynamic_cast.
  destruct (subscribersByEventName st !! name) as [hcBase|] eqn:E.
  - case_decide; [|done]. intros [= <- <-]. by split.
  - intros H. by apply allocate_and_store_registers in H as [? _].
Qed.

Lemma getSubscribers_match Args Args' name st hc :
  registered_with st name hc Args →
  SubscriberCollectionDecay Args' = SubscriberCollectionDecay Args →
  EventRegistry.getSubscribers Args' name st = Returns (Some hc) st.
Proof.
  intros [Hm Ht] Heq. unfold EventRegistry.getSubscribers.
  rewrite Hm, dynamic_cast_Some; [done | congruence].
Qed.

Lemma getSubscribers_mismatch Args Args' name st hc :
  registered_with st name hc Args →
  SubscriberCollectionDecay Args' ≠ SubscriberCollectionDecay Args →
  EventRegistry.getSubscribers Args' name st
  = Throws (invalid_argument
              (ArgumentTypesMismatch name (SubscriberCollectionDecay Args) Args'))
      st.
Proof.
  intros [Hm Ht] Hne. unfold EventRegistry.getSubscribers.
  rewrite Hm, dynamic_cast_None; [by rewrite Ht | congruence].
Qed.

End RegistryFacts.

(** ** Handlers, calls and the queue *)

Section QueueFacts.
Context {World : Type}.
Implicit Types (st : State World) (e : QueuedEvent.t) (p : ptr)
  (h : Subscriber World) (args : list Value) (cur : list QueuedEvent.t).

Lemma same_objects_refl st : same_objects st st.
Proof. done. Qed.

Lemma same_objects_trans st1 st2 st3 :
  same_objects st1 st2 → same_objects st2 st3 → same_objects st1 st3.
Proof. intros [? ?] [? ?]. split; congruence. Qed.

Create HintDb es_objects discriminated.
#[local] Hint Resolve same_objects_refl same_objects_trans : es_objects.

Lemma same_objects_deref st st' p : same_objects st st' → deref st' p = deref st p.
Proof. intros [Hh _]. unfold deref. by rewrite Hh. Qed.

Lemma event_trace_same st st' e :
  same_objects st st' → event_trace st' e = event_trace st e.
Proof. intros H. unfold event_trace. by rewrite (same_objects_deref _ _ _ H). Qed.

Lemma fired_events_app l1 l2 :
  fired_events (l1 ++ l2) = fired_events l1 ++ fired_events l2.
Proof. apply omap_app. Qed.

Lemma fired_events_invocations p args (hs : list (Subscriber World)) :
  fired_events (invocations p args hs) = [].
Proof. by induction hs. Qed.

Lemma fired_events_event_trace st e : fired_events (event_trace st e) = [e].
Proof.
  unfold event_trace. change (Fired e :: ?l) with ([Fired e] ++ l).
  by rewrite fired_events_app, fired_events_invocations.
Qed.

Lemma enqueue_tuple_queue p args st :
  eventQueueHead (enqueue_tuple p args st)
  = eventQueueHead st ++ [QueuedEvent.mk p args].
Proof. unfold enqueue_tuple. by destruct (eventQueueHead st). Qed.

Lemma enqueue_tuple_same p args st :
  same_objects st (enqueue_tuple p args st)
  ∧ log (enqueue_tuple p args st) = log st
  ∧ world (enqueue_tuple p args st) = world st.
Proof. unfold enqueue_tuple. by destruct (eventQueueHead st). Qed.

Lemma enqueue_all_spec (evs : list QueuedEvent.t) st :
  let st' := foldl (λ s e, enqueue_tuple (QueuedEvent.handlerRef e)
                            (QueuedEvent.args e) s) st evs in
  eventQueueHead st' = eventQueueHead st ++ evs
  ∧ same_objects st st' ∧ log st' = log st ∧ world st' = world st.
Proof.
  revert st. induction evs as [|e evs IH]; intros st; simpl.
  - by rewrite app_nil_r.
  - destruct (IH (enqueue_tuple (QueuedEvent.handlerRef e) (QueuedEvent.args e) st))
      as (Hq & Ho & Hl & Hw).
    destruct (enqueue_tuple_same (QueuedEvent.handlerRef e) (QueuedEvent.args e) st)
      as (Ho' & Hl' & Hw').
    rewrite Hq, Hl, Hw, enqueue_tuple_queue. split_and!; try done.
    + destruct e; simpl. by rewrite <- app_assoc.
    + eauto with es_objects.
Qed.

(** One handler: its invocation is logged, the events it asks for are
    appended to the queue, and no collection changes. *)
Lemma run_handler_spec p args st h :
  let st' := run_handler p args st h in
  log st' = log st ++ [Invoked p (sub_id h) args]
  ∧ eventQueueHead st' = eventQueueHead st ++ (function h args (world st)).2
  ∧ world st' = (function h args (world st)).1
  ∧ same_objects st st'.
Proof.
  unfold run_handler; simpl.
  destruct (function h args (world st)) as [w evs] eqn:E; simpl.
  pose proof (enqueue_all_spec evs
                (set_world w (append_log [Invoked p (sub_id h) args] st)))
    as (Hq & Ho & Hl & Hw).
  simpl in *. by rewrite Hq, Hl, Hw.
Qed.

Lemma call_loop_spec p args (hs : list (Subscriber World)) st :
  let st' := foldl (run_handler p args) st hs in
  log st' = log st ++ invocations p args hs
  ∧ eventQueueHead st' = eventQueueHead st ++ (requested_by hs args (world st)).2
  ∧ world st' = (requested_by hs args (world st)).1
  ∧ same_objects st st'.
Proof.
  revert st. induction hs as [|h hs IH]; intros st; simpl.
  - by rewrite !app_nil_r.
  - destruct (IH (run_handler p args st h)) as (Hl & Hq & Hw & Ho).
    destruct (run_handler_spec p args st h) as (Hl' & Hq' & Hw' & Ho').
    rewrite Hl, Hl', Hq, Hq', Hw, Hw', <- !app_assoc.
    destruct (function h args (world st)) as [w1 evs]; simpl.
    destruct (requested_by hs args w1) as [w2 more]; simpl.
    split_and!; try done. eauto with es_objects.
Qed.

(** [call] invokes every subscriber of the collection, in the order of the
    vector, before it returns; it only appends to the queue. *)
Lemma call_spec p args st :
  let hs := handlers (deref st p) in
  log (Collection.call p args st) = log st ++ invocations p args hs
  ∧ eventQueueHead (Collection.call p args st)
    = eventQueueHead st ++ (requested_by hs args (world st)).2
  ∧ world (Collection.call p args st) = (requested_by hs args (world st)).1
  ∧ same_objects st (Collection.call p args st).
Proof. apply call_loop_spec. Qed.

(** The client state after a run of the subscribers: each function is
    applied to the arguments and to the client state that the one before it
    left. *)
Lemma requested_by_world (hs : list (Subscriber World)) args (w : World) :
  (requested_by hs args w).1 = foldl (λ w' h, (function h args w').1) w hs.
Proof.
  revert w. induction hs as [|h hs IH]; intros w; [done|].
  cbn [requested_by foldl]. rewrite <- IH.
  destruct (function h args w) as [w1 evs]. cbn [fst].
  by destruct (requested_by hs args w1).
Qed.

Lemma call_tuple_call p args st :
  Collection.call_tuple p args st = Collection.call p args st.
Proof. done. Qed.

Lemma fire_spec e st :
  let hs := handlers (deref st (QueuedEvent.handlerRef e)) in
  log (EventQueue.fire e st) = log st ++ event_trace st e
  ∧ eventQueueHead (EventQueue.fire e st)
    = eventQueueHead st ++ (requested_by hs (QueuedEvent.args e) (world st)).2
  ∧ world (EventQueue.fire e st)
    = (requested_by hs (QueuedEvent.args e) (world st)).1
  ∧ same_objects st (EventQueue.fire e st).
Proof.
  unfold EventQueue.fire. rewrite call_tuple_call.
  destruct (call_spec (QueuedEvent.handlerRef e) (QueuedEvent.args e)
              (append_log [Fired e] st)) as (Hl & Hq & Hw & Ho).
  simpl. rewrite Hl, Hq, Hw. simpl. rewrite <- app_assoc. split_and!; done.
Qed.

Lemma requested_during_same st st' cur w :
  same_objects st st' → requested_during st' cur w = requested_during st cur w.
Proof.
  intros Ho. revert w. induction cur as [|e next IH]; intros w; simpl; [done|].
  rewrite (same_objects_deref _ _ _ Ho).
  destruct (requested_by _ _ w) as [w1 evs]. by rewrite IH.
Qed.

Lemma fire_chain_spec cur st :
  log (EventQueue.fire_chain cur st) = log st ++ flat_map (event_trace st) cur
  ∧ eventQueueHead (EventQueue.fire_chain cur st)
    = eventQueueHead st ++ (requested_during st cur (world st)).2
  ∧ world (EventQueue.fire_chain cur st) = (requested_during st cur (world st)).1
  ∧ same_objects st (EventQueue.fire_chain cur st).
Proof.
  revert st. induction cur as [|e next IH]; intros st; simpl.
  - by rewrite !app_nil_r.
  - destruct (IH (EventQueue.fire e st)) as (Hl & Hq & Hw & Ho).
    destruct (fire_spec e st) as (Hl' & Hq' & Hw' & Ho').
    rewrite Hl, Hl', Hq, Hq', Hw, Hw', <- !app_assoc.
    rewrite (requested_during_same st _ _ _ Ho').
    destruct (requested_by _ _ (world st)) as [w1 evs]; simpl.
    destruct (requested_during st next w1) as [w2 more]; simpl.
    split_and!; try done.
    + f_equal. unfold event_trace at 1. simpl. do 2 f_equal.
      apply flat_map_ext. intros e'.
      by apply event_trace_same.
    + eauto with es_objects.
Qed.

Lemma fired_events_flat_map st cur :
  fired_events (flat_map (event_trace st) cur) = cur.
Proof.
  induction cur as [|e cur IH]; simpl; [done|].
  change (Fired e :: ?l) with ([Fired e] ++ l).
  rewrite !fired_events_app, fired_events_invocations, IH. done.
Qed.

Lemma detach_empty st : eventQueueHead st = [] → EventQueue.detach st = st.
Proof. intros H. unfold EventQueue.detach, set_eventQueueHead. rewrite <- H. by destruct st. Qed.

(** [process] in one equation. *)
Lemma process_unfold st :
  EventQueue.process st
  = (negb (bool_decide (eventQueueHead st = [])),
     EventQueue.fire_chain (eventQueueHead st) (EventQueue.detach st)).
Proof.
  unfold EventQueue.process.
  destruct (eventQueueHead st) eqn:E; simpl; [by rewrite detach_empty | done].
Qed.

Lemma process_log st :
  log (EventQueue.process st).2
  = log st ++ flat_map (event_trace st) (eventQueueHead st).
Proof.
  rewrite process_unfold. cbn [snd].
  destruct (fire_chain_spec (eventQueueHead st) (EventQueue.detach st))
    as (Hl & _).
  rewrite Hl. cbn [EventQueue.detach set_eventQueueHead log]. f_equal.
Qed.

Lemma process_queue st :
  eventQueueHead (EventQueue.process st).2
  = (requested_during st (eventQueueHead st) (world st)).2.
Proof.
  rewrite process_unfold. cbn [snd].
  destruct (fire_chain_spec (eventQueueHead st) (EventQueue.detach st))
    as (_ & Hq & _).
  rewrite Hq, (requested_during_same st (EventQueue.detach st)) by done.
  done.
Qed.

Lemma process_same_objects st : same_objects st (EventQueue.process st).2.
Proof.
  rewrite process_unfold. cbn [snd].
  apply (fire_chain_spec (eventQueueHead st) (EventQueue.detach st)).
Qed.

End QueueFacts.

(** ** Publishing and calling by name *)

Section FacadeFacts.
Context {World : Type}.
Implicit Types (st : State World) (Args : list ArgType) (name : string)
  (args : list Value).

Lemma getSubscribers_returns Args name st o st' :
  EventRegistry.getSubscribers Args name st = Returns o st' →
  st' = st
  ∧ match o with
    | None => subscribersByEventName st !! name = None
    | Some hc => registered_with st name hc Args
    end.
Proof.
  unfold EventRegistry.getSubscribers, EventRegistry.dynamic_cast, registered_with.
  destruct (subscribersByEventName st !! name) as [hcBase|].
  - case_decide; [|done]. by intros [= <- <-].
  - by intros [= <- <-].
Qed.

End FacadeFacts.

(** ** Draining the queue in batches *)

Section BatchFacts.
Context {World : Type}.
Implicit Types (st : State World) (e : QueuedEvent.t)
  (maxBatches : option nat).

Lemma process_flag st :
  (EventQueue.process st).1 = negb (bool_decide (eventQueueHead st = [])).
Proof. by rewrite process_unfold. Qed.

Lemma process_empty st :
  eventQueueHead st = [] → EventQueue.process st = (false, st).
Proof. intros H. unfold EventQueue.process. by rewrite H. Qed.

Lemma process_nonempty st :
  eventQueueHead st ≠ [] → (EventQueue.process st).1 = true.
Proof. intros H. rewrite process_flag. by rewrite bool_decide_eq_false_2. Qed.

(** The two cases of a call of [process] on [st]: the queue was empty and
    nothing changed, or the call returned [true]. *)
Ltac process_cases st st1 E Hq :=
  let more := fresh "more" in
  destruct (EventQueue.process st) as [more st1] eqn:E;
  destruct (decide (eventQueueHead st = [])) as [Hq|Hq];
  [ rewrite process_empty in E by done; injection E as <- <-
  | let Hm := fresh "Hm" in
    pose proof (process_nonempty st Hq) as Hm;
    rewrite E in Hm; simpl in Hm; subst more ].

Lemma batches_S n st :
  batches (S n) st = (EventQueue.process (batches n st)).2.
Proof. revert st. induction n as [|n IH]; intros st; [done|]. simpl. by rewrite <- IH. Qed.

Lemma batches_add n m st : batches (n + m) st = batches m (batches n st).
Proof. revert st. induction n as [|n IH]; intros st; [done|]. simpl. apply IH. Qed.

Lemma batches_empty n st : eventQueueHead st = [] → batches n st = st.
Proof.
  intros H. induction n as [|n IH]; [done|]. simpl.
  by rewrite process_empty.
Qed.

Lemma batches_same_objects n st : same_objects st (batches n st).
Proof.
  revert st. induction n as [|n IH]; intros st; [done|]. simpl.
  eapply same_objects_trans; [|apply IH]. apply process_same_objects.
Qed.

(** The log only grows from batch to batch. *)
Lemma batches_log_extends n m st :
  ∃ l, log (batches (n + m) st) = log (batches n st) ++ l.
Proof.
  rewrite batches_add. generalize (batches n st). clear st. intros st.
  revert st. induction m as [|m IH]; intros st.
  - exists []. by rewrite app_nil_r.
  - simpl. destruct (IH (EventQueue.process st).2) as [l Hl].
    eexists. rewrite Hl, process_log, <- app_assoc. done.
Qed.

(** The loop of [EventQueue.h] ends after the first batch that finds the
    queue empty, and only there. *)
Lemma processUntilEmpty_returns fuel st st' :
  EventQueue.processUntilEmpty fuel st = Some st' →
  ∃ n, (n < fuel)%nat ∧ st' = batches n st ∧ eventQueueHead st' = []
       ∧ ∀ i, (i < n)%nat → eventQueueHead (batches i st) ≠ [].
Proof.
  revert st. induction fuel as [|fuel IH]; intros st; simpl; [done|].
  process_cases st st1 E Hq.
  - intros [= <-]. exists 0%nat. split_and!; try done; lia.
  - intros H. apply IH in H as (n & Hn & -> & Hempty & Hbefore).
    exists (S n). simpl. rewrite E. simpl. split_and!; try done; [lia|].
    intros [|i] Hi; simpl; [done|]. rewrite E. apply Hbefore. lia.
Qed.

Lemma processUntilEmpty_terminates n fuel st :
  eventQueueHead (batches n st) = [] → (n < fuel)%nat →
  is_Some (EventQueue.processUntilEmpty fuel st).
Proof.
  revert n st. induction fuel as [|fuel IH]; intros n st Hq Hn; [lia|]. simpl.
  destruct (EventQueue.process st) as [more st1] eqn:E.
  destruct more; [|done].
  destruct n as [|n].
  - simpl in Hq. rewrite process_empty in E by done. done.
  - simpl in Hq. rewrite E in Hq. apply (IH n); [done | lia].
Qed.





End BatchFacts.

(** ** Subscriptions *)

Section SubscriptionFacts.
Context {World : Type}.
Implicit Types (st : State World) (h : SubscriptionHandle) (p : ptr)
  (s : Subscriber World) (pre post hs : list (Subscriber World)).

Lemma erase_first_absent i hs :
  i ∉ sub_id <$> hs → Collection.erase_first i hs = hs.
Proof.
  induction hs as [|x hs IH]; simpl; [done|].
  rewrite not_elem_of_cons. intros [Hne Hnot].
  rewrite decide_False by done. by rewrite IH.
Qed.

Lemma erase_first_present pre s post :
  sub_id s ∉ sub_id <$> (pre ++ post) →
  Collection.erase_first (sub_id s) (pre ++ s :: post) = pre ++ post.
Proof.
  induction pre as [|x pre IH]; simpl.
  - intros _. by rewrite decide_True.
  - rewrite not_elem_of_cons. intros [Hne Hnot].
    rewrite decide_False by done. by rewrite IH.
Qed.

Lemma erase_first_first i pre s post :
  sub_id s = i → i ∉ sub_id <$> pre →
  Collection.erase_first i (pre ++ s :: post) = pre ++ post.
Proof.
  intros Hs. induction pre as [|x pre IH]; simpl.
  - intros _. by rewrite decide_True.
  - rewrite not_elem_of_cons. intros [Hne Hnot].
    rewrite decide_False by done. by rewrite IH.
Qed.

Lemma removeHandler_absent p i st :
  i ∉ sub_id <$> handlers (deref st p) → Collection.removeHandler p i st = st.
Proof.
  intros Hi. unfold Collection.removeHandler. rewrite erase_first_absent by done.
  replace (mkCollection _ _ _) with (deref st p) by by destruct (deref st p).
  apply store_deref.
Qed.

Lemma removeHandler_present st h p pre s post :
  refers_to st h p pre s post →
  let st' := Collection.removeHandler p (sub_id s) st in
  deref st' p
  = mkCollection (argTypes (deref st p)) (pre ++ post) (newIdCounter (deref st p))
  ∧ (∀ q, q ≠ p → deref st' q = deref st q)
  ∧ length (heap st') = length (heap st)
  ∧ subscribersByEventName st' = subscribersByEventName st
  ∧ eventQueueHead st' = eventQueueHead st
  ∧ world st' = world st ∧ log st' = log st.
Proof.
  intros (_ & _ & Hp & Hhs & Hnot). unfold Collection.removeHandler.
  rewrite Hhs, erase_first_present by done. split_and!; try done.
  - by apply deref_store_eq.
  - intros q Hq. by apply deref_store_ne.
  - simpl. by rewrite length_insert.
Qed.


Lemma addSubscriber_state p (f : Handler World) st :
  (Collection.addSubscriber p f st).2
  = store p
      (mkCollection (argTypes (deref st p))
         (handlers (deref st p) ++ [mkSubscriber (newIdCounter (deref st p)) f])
         (uint_wrap (newIdCounter (deref st p) + 1))) st.
Proof. done. Qed.

(** The handle that [addSubscriber] returns refers to the subscriber that
    was appended, as long as the id taken from the counter is not in use. *)
Lemma addSubscriber_refers p (f : Handler World) st :
  (p < length (heap st))%nat →
  newIdCounter (deref st p) ∉ sub_id <$> handlers (deref st p) →
  refers_to (Collection.addSubscriber p f st).2
    (Collection.addSubscriber p f st).1 p
    (handlers (deref st p)) (mkSubscriber (newIdCounter (deref st p)) f) [].
Proof.
  intros Hp Hfresh. unfold refers_to. rewrite addSubscriber_state.
  split_and!; try done.
  - simpl. by rewrite length_insert.
  - by rewrite deref_store_eq.
  - by rewrite app_nil_r.
Qed.



(** [unsubscribe] on a handle that refers to a subscriber is the
    [removeHandler] of its collection. *)
Lemma unsubscribe_refers st h p pre s post :
  refers_to st h p pre s post →
  unsubscribe h st
  = (mkHandle None (sub_id s), Collection.removeHandler p (sub_id s) st).
Proof. intros (Hc & Hi & _). unfold unsubscribe. by rewrite Hc, Hi. Qed.


(** The [release] of [EventSubscription.h] keeps the subscription: the state
    is untouched, the returned handle is the one the scoped subscription
    held, and destroying the scoped subscription afterwards changes
    nothing. *)
Lemma EventSubscription_release_keeps h st :
  let '(res, this', st') := EventSubscription.release h st in
  res = h ∧ st' = st ∧ subscriberCollection this' = None ∧ destroy this' st' = st'.
Proof. done. Qed.

(** The [release] of [EventSubscriberCollection.h] is an [unsubscribe]: the
    subscriber is removed from its collection, and the handle that is
    returned refers to a subscriber that is gone. *)
Lemma InlineSubscription_release_unsubscribes st h p pre s post :
  refers_to st h p pre s post →
  let '(res, this', st') := InlineSubscription.release h st in
  res = h ∧ this' = empty_handle
  ∧ st' = (unsubscribe h st).2
  ∧ handlers (deref st' p) = pre ++ post.
Proof.
  intros Href.
  destruct (removeHandler_present st h p pre s post Href) as (Hd & _).
  unfold InlineSubscription.release, assign.
  rewrite (unsubscribe_refers st h p pre s post Href). cbn [snd].
  by rewrite Hd.
Qed.

End SubscriptionFacts.

(** ** Parsing parameters from strings *)

Section ParserFacts.
Import Stream.

Lemma ends_number_inv c :
  ends_number c = true →
  isspace c = false ∧ isdigit c = false
  ∧ c ≠ "."%char ∧ c ≠ "e"%char ∧ c ≠ "E"%char ∧ c ≠ "+"%char ∧ c ≠ "-"%char.
Proof.
  unfold ends_number. rewrite !andb_true_iff, !negb_true_iff.
  intros [[Hs Hd] Hn]. apply bool_decide_eq_false in Hn.
  rewrite !not_elem_of_cons in Hn. destruct Hn as (? & ? & ? & ? & ? & _).
  done.
Qed.

Lemma skipws_app s c t :
  isspace c = false → skipws (s +:+ String c t) = skipws s +:+ String c t.
Proof.
  intros Hc. induction s as [|x s IH]; simpl.
  - by rewrite Hc.
  - by destruct (isspace x).
Qed.

Lemma skipws_empty_app s c t :
  isspace c = false → skipws s = EmptyString →
  skipws (s +:+ String c t) = String c t.
Proof. intros Hc Hs. by rewrite skipws_app, Hs. Qed.

Lemma digits_app acc n s c t :
  isdigit c = false →
  digits acc n (s +:+ String c t)
  = ((digits acc n s).1.1, (digits acc n s).1.2, (digits acc n s).2 +:+ String c t).
Proof.
  intros Hc. revert acc n. induction s as [|x s IH]; intros acc n; simpl.
  - by rewrite Hc.
  - destruct (isdigit x); [apply IH | done].
Qed.

Lemma sign_app x s c t :
  sign (String x s +:+ String c t)
  = ((sign (String x s)).1, (sign (String x s)).2 +:+ String c t).
Proof. simpl. by repeat case_bool_decide. Qed.

Lemma sign_stop c t :
  c ≠ "+"%char → c ≠ "-"%char → sign (String c t) = (false, String c t).
Proof. intros. simpl. by rewrite !bool_decide_eq_false_2. Qed.

Lemma sign_any_app s c t :
  c ≠ "+"%char → c ≠ "-"%char →
  sign (s +:+ String c t) = ((sign s).1, (sign s).2 +:+ String c t).
Proof.
  intros Hp Hm. destruct s as [|x s].
  - change (EmptyString +:+ String c t) with (String c t). by rewrite sign_stop.
  - apply sign_app.
Qed.

Lemma exponent_app s c t :
  ends_number c = true → exponent (s +:+ String c t) = exponent s.
Proof.
  intros (_ & Hd & _ & He & HE & Hp & Hm)%ends_number_inv.
  destruct s as [|x s].
  - simpl. rewrite bool_decide_eq_false_2; [done | by intros [|]].
  - change (String x s +:+ String c t) with (String x (s +:+ String c t)).
    unfold exponent. case_bool_decide; [|done].
    rewrite sign_any_app by done. destruct (sign s) as [neg s1]. cbn [fst snd].
    rewrite digits_app by done.
    by destruct (digits 0 0 s1) as [[e n] r].
Qed.

Lemma fraction_app m s c t :
  ends_number c = true →
  fraction m (s +:+ String c t)
  = ((fraction m s).1.1, (fraction m s).1.2, (fraction m s).2 +:+ String c t).
Proof.
  intros (_ & Hd & Hdot & _)%ends_number_inv.
  destruct s as [|x s]; simpl.
  - by rewrite bool_decide_eq_false_2.
  - case_bool_decide; [|done]. by rewrite digits_app.
Qed.

(** Extraction of an [int] does not look past the numeric field. *)
Lemma extract_int_app s c t :
  ends_number c = true → extract_int (s +:+ String c t) = extract_int s.
Proof.
  intros Hc. pose proof Hc as (Hs & Hd & _ & _ & _ & Hp & Hm)%ends_number_inv.
  unfold extract_int. rewrite skipws_app by done.
  destruct (skipws s) as [|x s1] eqn:E.
  - simpl. rewrite !bool_decide_eq_false_2 by done. simpl. by rewrite Hd.
  - change (String x s1 +:+ String c t) with (String x (s1 +:+ String c t)).
    lazy beta match.
    change (String x (s1 +:+ String c t)) with (String x s1 +:+ String c t).
    rewrite sign_app. destruct (sign (String x s1)) as [neg s2]. cbn [fst snd].
    rewrite digits_app by done.
    by destruct (digits 0 0 s2) as [[m n] r].
Qed.

(** Nor does the extraction of a [double]. *)
Lemma extract_double_app s c t :
  ends_number c = true → extract_double (s +:+ String c t) = extract_double s.
Proof.
  intros Hc. pose proof Hc as (Hs & Hd & Hdot & _ & _ & Hp & Hm)%ends_number_inv.
  unfold extract_double. rewrite skipws_app by done.
  destruct (skipws s) as [|x s1] eqn:E.
  - simpl. rewrite !bool_decide_eq_false_2 by done. simpl. rewrite Hd. simpl.
    by rewrite bool_decide_eq_false_2.
  - change (String x s1 +:+ String c t) with (String x (s1 +:+ String c t)).
    lazy beta match.
    change (String x (s1 +:+ String c t)) with (String x s1 +:+ String c t).
    rewrite sign_app. destruct (sign (String x s1)) as [neg s2]. cbn [fst snd].
    rewrite digits_app by done.
    destruct (digits 0 0 s2) as [[m1 n1] s3]. cbn [fst snd].
    rewrite fraction_app by done.
    destruct (fraction m1 s3) as [[m2 n2] s4]. cbn [fst snd].
    by rewrite exponent_app.
Qed.

End ParserFacts.

(** * The claims *)

Section Claims.
Context {World : Type}.
Implicit Types (st : State World) (Args : list ArgType) (name : string)
  (args : list Value) (maxBatches : option nat).

(** C1 (as amended).  [EventRegistry::registerEvent] on a name that is
    already registered throws [std::invalid_argument] with the duplicate
    message whatever the signature, and leaves the state, hence the map, as
    it was.  [EventSystem::registerEvent], which hides it in the facade, is
    [getOrRegister]: on a registered name it returns the existing collection
    when the decayed signature is the stored one, and throws
    [std::invalid_argument] with the mismatch message otherwise; the state is
    unchanged in both cases. *)
Theorem registerEvent_on_registered_name Args name st hc :
  subscribersByEventName st !! name = Some hc →
  EventRegistry.registerEvent Args name st
  = Throws (invalid_argument (AlreadyRegistered name)) st
  ∧ EventSystem.registerEvent Args name st
    = if decide (argTypes (deref st hc) = SubscriberCollectionDecay Args)
      then Returns hc st
      else Throws (invalid_argument
                     (ArgumentTypesMismatch name (argTypes (deref st hc)) Args))
             st.
Proof.
  intros Hm. split.
  - unfold EventRegistry.registerEvent. by rewrite Hm.
  - unfold EventSystem.registerEvent, EventRegistry.getOrRegister,
      EventRegistry.dynamic_cast.
    rewrite Hm. by case_decide.
Qed.

(** C2.  One call of [process]: the first phase leaves the queue empty; the
    call returns [false] exactly when the queue was empty at the start; the
    log grows by the firing of the detached events in the order of the chain,
    each followed by the invocations of the subscribers of its collection;
    the events fired by this call are exactly the detached ones, so that an
    event enqueued by a handler during the firing is not fired by it; what is
    queued afterwards is what the handlers asked to enqueue during the
    firing; no collection and no registration changes. *)
Theorem process_spec st :
  let cur := eventQueueHead st in
  let st' := (EventQueue.process st).2 in
  eventQueueHead (EventQueue.detach st) = []
  ∧ (EventQueue.process st).1 = negb (bool_decide (cur = []))
  ∧ st' = EventQueue.fire_chain cur (EventQueue.detach st)
  ∧ log st' = log st ++ flat_map (event_trace st) cur
  ∧ fired_events (log st') = fired_events (log st) ++ cur
  ∧ eventQueueHead st' = (requested_during st cur (world st)).2
  ∧ same_objects st st'.
Proof.
  intros cur st'. subst cur st'.
  pose proof (process_log st) as Hlog.
  split_and!.
  - done.
  - by rewrite process_unfold.
  - by rewrite process_unfold.
  - exact Hlog.
  - rewrite Hlog, fired_events_app. f_equal. apply fired_events_flat_map.
  - apply process_queue.
  - apply process_same_objects.
Qed.


(** The numeric parsers never look behind the numeric field.  Appending to
    any input a text that begins with a character which is neither
    whitespace, nor a digit, nor one of [. e E + -], changes neither the
    result of the parse nor, for a topic with that one parameter, the effect
    of the invocation from strings. *)
Lemma numeric_parse_ignores_trailing T s c t :
  ParameterValueParser.valueType T = INT
  ∨ ParameterValueParser.valueType T = DOUBLE →
  ends_number c = true →
  ParameterValueParser.parse T (s +:+ String c t) = ParameterValueParser.parse T s
  ∧ (ParameterValueParser.parse T s = inl (invalid_argument IllegalIntegerValue)
     ↔ (ParameterValueParser.valueType T = INT ∧ Stream.extract_int s = None)
       ∨ (ParameterValueParser.valueType T = DOUBLE
          ∧ Stream.extract_double s = None))
  ∧ (∀ p st, argTypes (deref st p) = [T] →
       EventParametersParser.callEvent p [s +:+ String c t] st
       = EventParametersParser.callEvent p [s] st).
Proof.
  intros HT Hc.
  assert (Happ : ParameterValueParser.parse T (s +:+ String c t)
                 = ParameterValueParser.parse T s).
  { destruct T; simpl in HT; try (by destruct HT); simpl.
    - by rewrite extract_int_app.
    - by rewrite extract_double_app. }
  split_and!.
  - done.
  - destruct T; simpl in *; try (by destruct HT).
    + destruct (Stream.extract_int s);
        (split; [intros ?; try discriminate; by left
                | intros [[? ?]|[? ?]]; try discriminate; done]).
    + destruct (Stream.extract_double s) as [[m e]|];
        (split; [intros ?; try discriminate; by right
                | intros [[? ?]|[? ?]]; try discriminate; done]).
  - intros p st Hsig. unfold EventParametersParser.callEvent,
      EventParametersParser.parseArgs. rewrite Hsig. simpl. by rewrite Happ.
Qed.

(** C5.  Once [registerEvent<Args...>(name)] has returned the collection
    [hc], [getSubscribers<Args'...>(name)] returns that same [hc] for every
    [Args'] with the same decayed signature, in particular for every [Args']
    that differs from [Args] in references and top-level [const]/[volatile]
    only; for every [Args'] whose decayed signature differs it throws
    [std::invalid_argument] with the mismatch message.  Pointers to [T] and
    to [const T] differ after decay. *)
Theorem getSubscribers_decay Args name st hc st' :
  EventRegistry.registerEvent Args name st = Returns hc st' →
  (∀ Args',
     SubscriberCollectionDecay Args' = SubscriberCollectionDecay Args →
     EventRegistry.getSubscribers Args' name st' = Returns (Some hc) st')
  ∧ (∀ Args',
       Forall2 same_up_to_ref_cv Args' Args →
       EventRegistry.getSubscribers Args' name st' = Returns (Some hc) st')
  ∧ (∀ Args',
       SubscriberCollectionDecay Args' ≠ SubscriberCollectionDecay Args →
       EventRegistry.getSubscribers Args' name st'
       = Throws (invalid_argument
                   (ArgumentTypesMismatch name (SubscriberCollectionDecay Args) Args'))
           st')
  ∧ (∀ T c v c' v',
       (c, v) ≠ (c', v') →
       decay (plain (t_ptr c v T)) ≠ decay (plain (t_ptr c' v' T))).
Proof.
  intros Hreg. apply registerEvent_registers in Hreg.
  repeat split.
  - intros Args' Heq. by eapply getSubscribers_match.
  - intros Args' Hsame. eapply getSubscribers_match; [done|].
    by apply SubscriberCollectionDecay_same.
  - intros Args' Hne. by eapply getSubscribers_mismatch.
  - intros T c v c' v' Hne. unfold decay; simpl. congruence.
Qed.

(** C6.  [publish] and [call] on a name that is not in the registry return
    [false] and leave the state as it was: nothing is enqueued, no handler
    runs and nothing is thrown.  They return [false] in no other case.  On a
    name registered with the decayed signature of [Args], [publish] returns
    [true] after appending the event with the captured arguments to the
    queue, without running a handler (the log and the client state are as
    before), and [call] returns [true] after invoking every subscriber of the
    collection: the function of each subscriber, in the order of the vector,
    has been applied to the arguments and to the client state left by the one
    before it, what the functions asked to enqueue has been appended to the
    queue, and no collection or registration has changed. *)
Theorem publish_call_spec Args name args st :
  (subscribersByEventName st !! name = None →
   EventSystem.publish Args name args st = Returns false st
   ∧ EventSystem.call Args name args st = Returns false st)
  ∧ (∀ st', EventSystem.publish Args name args st = Returns false st' →
            subscribersByEventName st !! name = None ∧ st' = st)
  ∧ (∀ st', EventSystem.call Args name args st = Returns false st' →
            subscribersByEventName st !! name = None ∧ st' = st)
  ∧ (∀ hc, registered_with st name hc Args →
       EventSystem.publish Args name args st
       = Returns true (EventQueue.enqueue hc args st)
       ∧ eventQueueHead (EventQueue.enqueue hc args st)
         = eventQueueHead st ++ [QueuedEvent.mk hc args]
       ∧ log (EventQueue.enqueue hc args st) = log st
       ∧ world (EventQueue.enqueue hc args st) = world st
       ∧ EventSystem.call Args name args st
         = Returns true (Collection.call hc args st)
       ∧ log (Collection.call hc args st)
         = log st ++ invocations hc args (handlers (deref st hc))
       ∧ world (Collection.call hc args st)
         = foldl (λ w h, (function h args w).1) (world st)
             (handlers (deref st hc))
       ∧ eventQueueHead (Collection.call hc args st)
         = eventQueueHead st
           ++ (requested_by (handlers (deref st hc)) args (world st)).2
       ∧ same_objects st (Collection.call hc args st)).
Proof.
  split_and!.
  - intros Hm. unfold EventSystem.publish, EventSystem.call,
      EventRegistry.getSubscribers. by rewrite Hm.
  - intros st'. unfold EventSystem.publish.
    destruct (EventRegistry.getSubscribers Args name st) as [[hc|] s|] eqn:E;
      try done.
    apply getSubscribers_returns in E as [-> Hm]. by intros [= <-].
  - intros st'. unfold EventSystem.call.
    destruct (EventRegistry.getSubscribers Args name st) as [[hc|] s|] eqn:E;
      try done.
    apply getSubscribers_returns in E as [-> Hm]. by intros [= <-].
  - intros hc Hreg.
    unfold EventSystem.publish, EventSystem.call.
    rewrite (getSubscribers_match Args Args name st hc Hreg eq_refl).
    destruct (call_spec hc args st) as (Hlog & Hqueue & Hworld & Hobjects).
    split_and!; try done.
    + apply enqueue_tuple_queue.
    + apply enqueue_tuple_same.
    + apply enqueue_tuple_same.
    + rewrite Hworld. apply requested_by_world.
Qed.

(** C7.  Let [processUntilEmpty] return, and let [e4] be in the queue,
    between [pre] and [post], when the call of [process] number [k + 1] of
    the loop ends, which is to say that a handler fired by that call asked to
    enqueue it.  Then the log at the return contains the firing of [e4] with
    the invocation of the subscribers of its collection, and this firing
    comes after everything that was logged up to the end of the call number
    [k + 1], that is after the firing of all the events that this call had
    detached (and after the events enqueued before [e4] in the same
    batch). *)
Theorem reentrant_event_processed fuel st st' k (e4 : QueuedEvent.t) pre post :
  EventQueue.processUntilEmpty fuel st = Some st' →
  eventQueueHead (batches (S k) st) = pre ++ e4 :: post →
  eventQueueHead (batches (S k) st)
  = (requested_during st (eventQueueHead (batches k st)) (world (batches k st))).2
  ∧ log (batches (S k) st)
    = log (batches k st) ++ flat_map (event_trace st) (eventQueueHead (batches k st))
  ∧ ∃ l,
      log st'
      = log (batches (S k) st)
        ++ flat_map (event_trace st) pre ++ event_trace st e4
        ++ flat_map (event_trace st) post ++ l.
Proof.
  intros Hret He4.
  apply processUntilEmpty_returns in Hret as (n & Hn & -> & Hempty & Hbefore).
  pose proof (batches_same_objects k st) as Hk.
  pose proof (batches_same_objects (S k) st) as HSk.
  pose proof (process_log (batches k st)) as Hlog.
  pose proof (process_queue (batches k st)) as Hq.
  rewrite <- batches_S in Hlog, Hq.
  rewrite (requested_during_same st (batches k st)) in Hq by done.
  rewrite (flat_map_ext _ _ (λ e, event_trace_same st (batches k st) e Hk)) in Hlog.
  split_and!; [done | done |].
  assert (S (S k) ≤ n)%nat as Hle.
  { destruct (decide (S (S k) ≤ n)%nat) as [|Hgt]; [done|]. exfalso.
    assert (n ≤ S k)%nat as Hle by lia.
    replace (S k) with (n + (S k - n))%nat in He4 by lia.
    rewrite batches_add, batches_empty in He4 by done.
    rewrite Hempty in He4. by destruct pre. }
  pose proof (process_log (batches (S k) st)) as Hlog2.
  rewrite <- batches_S in Hlog2.
  rewrite (flat_map_ext _ _ (λ e, event_trace_same st (batches (S k) st) e HSk)),
    He4, flat_map_app in Hlog2. cbn [flat_map] in Hlog2.
  destruct (batches_log_extends (S (S k)) (n - S (S k)) st) as [l Hl].
  replace (S (S k) + (n - S (S k)))%nat with n in Hl by lia.
  exists l. rewrite Hl, Hlog2. by rewrite <- !app_assoc.
Qed.


(** C10.  [hasRegisteredEvent<Args...>(name)] is true exactly when [name] is
    in the map and the collection stored for it has the decayed signature of
    [Args].  It is false for an absent name, where [getSubscribers] returns
    [NULL], and false as well for a name stored with another signature, where
    [getSubscribers] throws: the query gives one answer in both cases. *)
Theorem hasRegisteredEvent_spec Args name st :
  (EventRegistry.hasRegisteredEvent Args name st = true
   ↔ ∃ hc, subscribersByEventName st !! name = Some hc
           ∧ argTypes (deref st hc) = SubscriberCollectionDecay Args)
  ∧ (subscribersByEventName st !! name = None →
     EventRegistry.hasRegisteredEvent Args name st = false
     ∧ EventRegistry.getSubscribers Args name st = Returns None st)
  ∧ (∀ hc,
       subscribersByEventName st !! name = Some hc →
       argTypes (deref st hc) ≠ SubscriberCollectionDecay Args →
       EventRegistry.hasRegisteredEvent Args name st = false
       ∧ EventRegistry.getSubscribers Args name st
         = Throws (invalid_argument
                     (ArgumentTypesMismatch name (argTypes (deref st hc)) Args))
             st).
Proof.
  unfold EventRegistry.hasRegisteredEvent, EventRegistry.getSubscribers,
    EventRegistry.dynamic_cast.
  split_and!.
  - split.
    + destruct (subscribersByEventName st !! name) as [hc|]; [|done].
      case_decide; [|done]. intros _. by exists hc.
    + intros (hc & -> & Ht). by rewrite decide_True.
  - intros Hm. by rewrite Hm.
  - intros hc Hm Ht. rewrite Hm. by rewrite decide_False.
Qed.

End Claims.

(** ** The claims at concrete inputs *)

Section Witnesses.
Import Examples.

Example subscribe_returns_handle2 :
  EventSystem.subscribe [plain int_] "TestEvent" counting es1
  = Returns handle2 es2.
Proof. by vm_compute. Qed.

(** The loop program needs four batches; a limit of two stops it early with
    an event still queued, and the plain loop does not end within three
    calls of [process]. *)
Example processUntilEmpty_loop0 :
  EventSystem.processUntilEmpty 9 (-1) loop0 = Some (4, batches 4 loop0)
  ∧ eventQueueHead (batches 4 loop0) = []
  ∧ EventSystem.processUntilEmpty 9 2 loop0 = Some (2, batches 2 loop0)
  ∧ eventQueueHead (batches 2 loop0) = [QueuedEvent.mk 0%nat [VInt 0]]
  ∧ EventQueue.processUntilEmpty 3 loop0 = None
  ∧ EventQueue.processUntilEmpty 5 loop0 = Some (batches 4 loop0).
Proof. by vm_compute. Qed.

(** Invocation from strings, as in the test of the library. *)
Example callEvent_parsers0 :
  EventParametersParser.callEvent 0%nat ["10"; "2.5"] parsers0
  = Returns () (Collection.call_tuple 0%nat [VInt 10; VFloat 25 (-1)] parsers0)
  ∧ EventParametersParser.callEvent 0%nat ["10"] parsers0
    = Throws (invalid_argument (WrongNumberOfArguments 2 1)) parsers0
  ∧ EventParametersParser.callEvent 1%nat ["True"] parsers0
    = Returns () (Collection.call_tuple 1%nat [VBool true] parsers0)
  ∧ EventParametersParser.callEvent 1%nat ["fAlSe"] parsers0
    = Returns () (Collection.call_tuple 1%nat [VBool false] parsers0)
  ∧ EventParametersParser.callEvent 1%nat ["yes"] parsers0
    = Throws (invalid_argument IllegalBooleanValue) parsers0
  ∧ EventParametersParser.callEvent 0%nat ["ten"; "2.5"] parsers0
    = Throws (invalid_argument IllegalIntegerValue) parsers0.
Proof. by vm_compute. Qed.

Example es1_registered :
  subscribersByEventName es1 !! "TestEvent" = Some 0%nat
  ∧ argTypes (deref es1 0) = [int_].
Proof. by vm_compute. Qed.

(** C1, as it was stated, at an input where it fails: the facade registers
    "TestEvent" for [int], and registering it again for [int] through the
    facade returns the collection at address 0 instead of throwing. *)
Lemma EventSystem_registerEvent_twice :
  subscribersByEventName es1 !! "TestEvent" = Some 0%nat
  ∧ EventSystem.registerEvent [plain int_] "TestEvent" es1 = Returns 0%nat es1
  ∧ ¬ (∃ st', EventSystem.registerEvent [plain int_] "TestEvent" es1
              = Throws (invalid_argument (AlreadyRegistered "TestEvent")) st').
Proof.
  assert (H : EventSystem.registerEvent [plain int_] "TestEvent" es1
              = Returns 0%nat es1) by by vm_compute.
  split_and!; [by vm_compute | done |]. rewrite H. by intros [st' ?].
Qed.

Lemma registerEvent_on_registered_name_witness :
  EventRegistry.registerEvent [plain t_string] "TestEvent" es1
  = Throws (invalid_argument (AlreadyRegistered "TestEvent")) es1
  ∧ EventSystem.registerEvent [const_ref int_] "TestEvent" es1 = Returns 0%nat es1
  ∧ EventSystem.registerEvent [plain t_string] "TestEvent" es1
    = Throws (invalid_argument
                (ArgumentTypesMismatch "TestEvent" [int_] [plain t_string])) es1.
Proof.
  assert (Hm : subscribersByEventName es1 !! "TestEvent" = Some 0%nat)
    by (vm_compute; reflexivity).
  split_and!.
  - exact (proj1 (registerEvent_on_registered_name
                    [plain t_string] "TestEvent" es1 0%nat Hm)).
  - exact (proj2 (registerEvent_on_registered_name
                    [const_ref int_] "TestEvent" es1 0%nat Hm)).
  - exact (proj2 (registerEvent_on_registered_name
                    [plain t_string] "TestEvent" es1 0%nat Hm)).
Defined.

Lemma getSubscribers_decay_witness :
  EventRegistry.getSubscribers [const_ref int_] "TestEvent" es1
  = Returns (Some 0%nat) es1
  ∧ EventRegistry.getSubscribers [plain t_string] "TestEvent" es1
    = Throws (invalid_argument
                (ArgumentTypesMismatch "TestEvent" [int_] [plain t_string])) es1
  ∧ decay (plain (t_ptr true false char_)) ≠ decay (plain (t_ptr false false char_))
  ∧ EventRegistry.getSubscribers [plain (t_ptr true false char_)] "ConstEvent" const0
    = Throws (invalid_argument
                (ArgumentTypesMismatch "ConstEvent" [t_ptr false false char_]
                   [plain (t_ptr true false char_)])) const0.
Proof.
  assert (Hreg : EventRegistry.registerEvent [plain int_] "TestEvent" es0
                 = Returns 0%nat es1) by (vm_compute; reflexivity).
  assert (Hreg' : EventRegistry.registerEvent [plain (t_ptr false false char_)]
                    "ConstEvent" es0
                  = Returns 0%nat const0) by (vm_compute; reflexivity).
  destruct (getSubscribers_decay [plain int_] "TestEvent" es0 0%nat es1 Hreg)
    as (_ & Hsame & Hdiff & Hptr).
  destruct (getSubscribers_decay _ "ConstEvent" es0 0%nat const0 Hreg')
    as (_ & _ & Hdiff' & _).
  split_and!.
  - apply Hsame. by repeat constructor.
  - apply (Hdiff [plain t_string]). by vm_compute.
  - by apply Hptr.
  - apply (Hdiff' [plain (t_ptr true false char_)]). by vm_compute.
Defined.

Lemma hasRegisteredEvent_spec_witness :
  EventRegistry.hasRegisteredEvent [plain int_] "TestEvent" es1 = true
  ∧ EventRegistry.hasRegisteredEvent [plain int_] "Unknown" es1 = false
  ∧ EventRegistry.getSubscribers [plain int_] "Unknown" es1 = Returns None es1
  ∧ EventRegistry.hasRegisteredEvent [plain t_string] "TestEvent" es1 = false
  ∧ EventRegistry.getSubscribers [plain t_string] "TestEvent" es1
    = Throws (invalid_argument
                (ArgumentTypesMismatch "TestEvent" [int_] [plain t_string])) es1.
Proof.
  destruct (hasRegisteredEvent_spec [plain int_] "TestEvent" es1) as ([_ Hyes] & _).
  destruct (hasRegisteredEvent_spec [plain int_] "Unknown" es1) as (_ & Habsent & _).
  destruct (hasRegisteredEvent_spec [plain t_string] "TestEvent" es1)
    as (_ & _ & Hother).
  destruct Habsent as [Ha1 Ha2]; [by vm_compute|].
  destruct (Hother 0%nat) as [Ho1 Ho2]; [by vm_compute | by vm_compute |].
  split_and!; [| exact Ha1 | exact Ha2 | exact Ho1 | exact Ho2].
  apply Hyes. exists 0%nat. by vm_compute.
Defined.

Lemma publish_call_spec_witness :
  EventSystem.publish [plain int_] "Unknown" [VInt 1] es5 = Returns false es5
  ∧ EventSystem.call [plain int_] "Unknown" [VInt 1] es5 = Returns false es5
  ∧ EventSystem.publish [plain int_] "TestEvent" [VInt 1] es5
    = Returns true (EventQueue.enqueue 0%nat [VInt 1] es5)
  ∧ eventQueueHead (EventQueue.enqueue 0%nat [VInt 1] es5)
    = [QueuedEvent.mk 0%nat [VInt 1]]
  ∧ world (EventQueue.enqueue 0%nat [VInt 1] es5) = 0%nat
  ∧ EventSystem.call [plain int_] "TestEvent" [VInt 1] es5
    = Returns true (Collection.call 0%nat [VInt 1] es5)
  ∧ log (Collection.call 0%nat [VInt 1] es5)
    = [Invoked 0%nat 0 [VInt 1]; Invoked 0%nat 1 [VInt 1]; Invoked 0%nat 2 [VInt 1]]
  ∧ world (Collection.call 0%nat [VInt 1] es5) = 111%nat
  ∧ EventSystem.call [plain t_string] "StrEvent" [VString "a"] es3
    = Returns true (Collection.call 1%nat [VString "a"] es3)
  ∧ eventQueueHead (Collection.call 1%nat [VString "a"] es3)
    = [QueuedEvent.mk 0%nat [VInt 4]].
Proof.
  destruct (publish_call_spec [plain int_] "Unknown" [VInt 1] es5)
    as (Hunknown & _).
  destruct (publish_call_spec [plain int_] "TestEvent" [VInt 1] es5)
    as (_ & _ & _ & Hknown).
  destruct (publish_call_spec [plain t_string] "StrEvent" [VString "a"] es3)
    as (_ & _ & _ & Hstr).
  destruct Hunknown as [Hu1 Hu2]; [by vm_compute|].
  destruct (Hknown 0%nat) as (Hk1 & Hk2 & _ & Hk4 & Hk5 & Hk6 & Hk7 & _);
    [by vm_compute|].
  destruct (Hstr 1%nat) as (_ & _ & _ & _ & Hs5 & _ & _ & Hs8 & _);
    [by vm_compute|].
  change (world es5) with 0%nat in Hk4.
  split_and!.
  - exact Hu1.
  - exact Hu2.
  - exact Hk1.
  - exact Hk2.
  - exact Hk4.
  - exact Hk5.
  - exact Hk6.
  - exact Hk7.
  - exact Hs5.
  - exact Hs8.
Defined.

(** The queue of [es4] holds "TestEvent"(1), "StrEvent"("a") and
    "TestEvent"(3); the subscriber of "StrEvent" publishes "TestEvent"(4). *)
Example process_es4 :
  fired_events (log (EventQueue.process es4).2)
  = [QueuedEvent.mk 0%nat [VInt 1]; QueuedEvent.mk 1%nat [VString "a"];
     QueuedEvent.mk 0%nat [VInt 3]]
  ∧ eventQueueHead (EventQueue.process es4).2 = [QueuedEvent.mk 0%nat [VInt 4]]
  ∧ log (EventQueue.process es4).2
    = [Fired (QueuedEvent.mk 0%nat [VInt 1]); Invoked 0%nat 0 [VInt 1];
       Fired (QueuedEvent.mk 1%nat [VString "a"]); Invoked 1%nat 0 [VString "a"];
       Fired (QueuedEvent.mk 0%nat [VInt 3]); Invoked 0%nat 0 [VInt 3]].
Proof. by vm_compute. Qed.


Lemma reentrant_event_processed_witness :
  eventQueueHead (batches 1 es4) = [QueuedEvent.mk 0%nat [VInt 4]]
  ∧ ∃ l,
      log (batches 2 es4)
      = log (batches 1 es4) ++ flat_map (event_trace es4) []
        ++ event_trace es4 (QueuedEvent.mk 0%nat [VInt 4])
        ++ flat_map (event_trace es4) [] ++ l.
Proof.
  assert (H1 : EventQueue.processUntilEmpty 3 es4 = Some (batches 2 es4))
    by (vm_compute; reflexivity).
  assert (H2 : eventQueueHead (batches 1 es4) = [] ++ QueuedEvent.mk 0%nat [VInt 4] :: [])
    by (vm_compute; reflexivity).
  destruct (reentrant_event_processed 3 es4 (batches 2 es4) 0
              (QueuedEvent.mk 0%nat [VInt 4]) [] [] H1 H2) as (_ & _ & Hlog).
  split; [exact H2 | exact Hlog].
Defined.



(** C4 at inputs where the code breaks it.  The numeric parsers reject a
    string without a number ("abc", the empty string) as an invalid input
    format, and the parser of [bool] rejects "truex", but "12abc" parses as
    the [int] 12 and "2.5abc" as the [double] 2.5: nothing is thrown, and
    the subscribers of an [int] topic are invoked with 12. *)
Theorem numeric_prefix_accepted :
  ParameterValueParser.parse int_ "abc" = inl (invalid_argument IllegalIntegerValue)
  ∧ ParameterValueParser.parse double_ "" = inl (invalid_argument IllegalIntegerValue)
  ∧ ParameterValueParser.parse t_bool "truex"
    = inl (invalid_argument IllegalBooleanValue)
  ∧ ParameterValueParser.parse int_ "12abc" = inr (VInt 12)
  ∧ ParameterValueParser.parse double_ "2.5abc" = inr (VFloat 25 (-1))
  ∧ EventParametersParser.callEvent 0%nat ["12abc"] es5
    = Returns () (Collection.call_tuple 0%nat [VInt 12] es5)
  ∧ log (Collection.call_tuple 0%nat [VInt 12] es5)
    = [Invoked 0%nat 0 [VInt 12]; Invoked 0%nat 1 [VInt 12];
       Invoked 0%nat 2 [VInt 12]]
  ∧ world (Collection.call_tuple 0%nat [VInt 12] es5) = 111%nat
  ∧ ¬ (∃ ex st', EventParametersParser.callEvent 0%nat ["12abc"] es5
                 = Throws ex st').
Proof.
  assert (H : EventParametersParser.callEvent 0%nat ["12abc"] es5
              = Returns () (Collection.call_tuple 0%nat [VInt 12] es5))
    by (vm_compute; reflexivity).
  split_and!; try (vm_compute; reflexivity).
  rewrite H. by intros (ex & st' & ?).
Qed.

(** C9 at an input where the inline [ScopedSubscription] of
    [EventSubscriberCollection.h] fails it: "TestEvent" has the one
    subscriber that [handle2] refers to; after [release] the collection has
    no subscriber and a call invokes nothing, although the returned handle
    still names the subscriber.  The [release] of [EventSubscription.h] on
    the same input leaves the subscriber in place. *)
Theorem InlineSubscription_release_removes_subscriber :
  Collection.getHandlerCount 0%nat es2 = 1%nat
  ∧ (let '(res, this', st') := InlineSubscription.release handle2 es2 in
     res = handle2
     ∧ Collection.getHandlerCount 0%nat st' = 0%nat
     ∧ log (Collection.call 0%nat [VInt 7] st') = [])
  ∧ (let '(res, this', st') := EventSubscription.release handle2 es2 in
     res = handle2
     ∧ Collection.getHandlerCount 0%nat st' = 1%nat
     ∧ log (Collection.call 0%nat [VInt 7] st') = [Invoked 0%nat 0 [VInt 7]]
     ∧ destroy this' st' = st').
Proof. by vm_compute. Qed.

End Witnesses.

(** * Further properties of the library *)

(** ** The queue, one event at a time *)

Section QueueMore.
Context {World : Type}.
Implicit Types (st : State World) (e : QueuedEvent.t) (p : ptr)
  (args : list Value) (cur next tl : list QueuedEvent.t).


Lemma process_world st :
  world (EventQueue.process st).2
  = (requested_during st (eventQueueHead st) (world st)).1.
Proof.
  rewrite process_unfold. cbn [snd].
  destruct (fire_chain_spec (eventQueueHead st) (EventQueue.detach st))
    as (_ & _ & Hw & _).
  rewrite Hw, (requested_during_same st (EventQueue.detach st)) by done.
  done.
Qed.

(** One call of [processOne] on a queue that starts with [e]. *)
Lemma processOne_cons st e next :
  eventQueueHead st = e :: next →
  let hs := handlers (deref st (QueuedEvent.handlerRef e)) in
  let st' := (EventQueue.processOne st).2 in
  (EventQueue.processOne st).1 = true
  ∧ log st' = log st ++ event_trace st e
  ∧ eventQueueHead st'
    = next ++ (requested_by hs (QueuedEvent.args e) (world st)).2
  ∧ world st' = (requested_by hs (QueuedEvent.args e) (world st)).1
  ∧ same_objects st st'.
Proof.
  intros Hq. unfold EventQueue.processOne. rewrite Hq. cbn [fst snd].
  destruct (fire_spec e (set_eventQueueHead next st)) as (Hl & Hq' & Hw & Ho).
  split_and!; done.
Qed.


Lemma enqueue_all_queue (evs : list QueuedEvent.t) st :
  eventQueueHead (enqueue_all evs st) = eventQueueHead st ++ evs
  ∧ same_objects st (enqueue_all evs st)
  ∧ log (enqueue_all evs st) = log st
  ∧ world (enqueue_all evs st) = world st.
Proof. apply (enqueue_all_spec evs st). Qed.

(** The events fired by the loop of [processUntilEmpty], batch by batch. *)
Lemma batches_fired n : ∀ st,
  fired_events (log (batches n st))
  = fired_events (log st)
    ++ concat ((λ i, eventQueueHead (batches i st)) <$> seq 0 n).
Proof.
  induction n as [|n IH]; intros st.
  - simpl. by rewrite app_nil_r.
  - rewrite batches_S, process_log, fired_events_app, IH.
    rewrite seq_S, fmap_app, concat_app. simpl. rewrite app_nil_r.
    pose proof (batches_same_objects n st) as Ho.
    rewrite (flat_map_ext _ _ (λ e', event_trace_same st _ e' Ho)).
    by rewrite fired_events_flat_map, <- app_assoc.
Qed.

(** X1.  [processOne] on an empty queue returns [false] and changes nothing.
    Otherwise it returns [true] after firing the head event and only that
    one: the log grows by the firing of the head and the invocations of the
    subscribers of its collection, the events behind it stay queued in their
    order, followed by what the handlers asked to enqueue, and no collection
    or registration changes. *)
Theorem processOne_spec st :
  (eventQueueHead st = [] → EventQueue.processOne st = (false, st))
  ∧ (∀ e next,
       eventQueueHead st = e :: next →
       let st' := (EventQueue.processOne st).2 in
       (EventQueue.processOne st).1 = true
       ∧ log st' = log st ++ event_trace st e
       ∧ fired_events (log st') = fired_events (log st) ++ [e]
       ∧ eventQueueHead st'
         = next ++ (requested_by (handlers (deref st (QueuedEvent.handlerRef e)))
                      (QueuedEvent.args e) (world st)).2
       ∧ same_objects st st').
Proof.
  split.
  - intros Hq. unfold EventQueue.processOne. by rewrite Hq.
  - intros e next Hq.
    destruct (processOne_cons st e next Hq) as (Hb & Hl & Hq' & _ & Ho).
    split_and!; try done.
    by rewrite Hl, fired_events_app, fired_events_event_trace.
Qed.


(** X3.  [size] counts the queued events and [isEmpty] tells whether there
    is none: an [enqueue] makes the queue one longer and never empty, and
    runs no handler.  [clear] empties the queue without firing anything (the
    log, the client state and the collections are as before), after which
    [process] and [processOne] find nothing to do. *)
Theorem queue_observers st :
  (EventQueue.isEmpty st = true ↔ EventQueue.size st = 0%nat)
  ∧ (∀ p args,
       EventQueue.size (EventQueue.enqueue p args st) = S (EventQueue.size st)
       ∧ EventQueue.isEmpty (EventQueue.enqueue p args st) = false
       ∧ log (EventQueue.enqueue p args st) = log st)
  ∧ EventQueue.size (EventQueue.clear st) = 0%nat
  ∧ EventQueue.isEmpty (EventQueue.clear st) = true
  ∧ log (EventQueue.clear st) = log st
  ∧ world (EventQueue.clear st) = world st
  ∧ same_objects st (EventQueue.clear st)
  ∧ EventQueue.process (EventQueue.clear st) = (false, EventQueue.clear st)
  ∧ EventQueue.processOne (EventQueue.clear st) = (false, EventQueue.clear st).
Proof.
  split_and!; try done.
  - unfold EventQueue.isEmpty, EventQueue.size.
    by destruct (eventQueueHead st).
  - intros p args. unfold EventQueue.size, EventQueue.isEmpty, EventQueue.enqueue.
    rewrite enqueue_tuple_queue, length_app. simpl.
    destruct (enqueue_tuple_same p args st) as (_ & Hl & _).
    split_and!; [lia | by destruct (eventQueueHead st) | done].
Qed.

(** X4.  First in, first out: after any sequence of [enqueue] calls, one
    call of [process] fires the events that were queued before, then the new
    ones in the order of the calls, whatever collections they name. *)
Theorem enqueue_process_fifo (evs : list QueuedEvent.t) st :
  eventQueueHead (enqueue_all evs st) = eventQueueHead st ++ evs
  ∧ fired_events (log (EventQueue.process (enqueue_all evs st)).2)
    = fired_events (log st) ++ eventQueueHead st ++ evs
  ∧ log (EventQueue.process (enqueue_all evs st)).2
    = log st ++ flat_map (event_trace st) (eventQueueHead st ++ evs).
Proof.
  destruct (enqueue_all_queue evs st) as (Hq & Ho & Hl & _).
  assert (Hlog : log (EventQueue.process (enqueue_all evs st)).2
                 = log st ++ flat_map (event_trace st) (eventQueueHead st ++ evs)).
  { rewrite process_log, Hl, Hq.
    by rewrite (flat_map_ext _ _ (λ e', event_trace_same st _ e' Ho)). }
  split_and!; [done | | done].
  by rewrite Hlog, fired_events_app, fired_events_flat_map.
Qed.

(** X5.  Nothing is dropped or reordered by [processUntilEmpty]: when the
    loop returns, the queue is empty and the events fired are, in order, the
    contents of the queue at the start of each batch, beginning with the
    events that were queued when the loop started. *)
Theorem processUntilEmpty_fires_all fuel st st' :
  EventQueue.processUntilEmpty fuel st = Some st' →
  eventQueueHead st' = []
  ∧ ∃ n, st' = batches n st
         ∧ fired_events (log st')
           = fired_events (log st)
             ++ concat ((λ i, eventQueueHead (batches i st)) <$> seq 0 n)
         ∧ ∃ later, fired_events (log st')
                    = fired_events (log st) ++ eventQueueHead st ++ later.
Proof.
  intros (n & _ & -> & Hempty & _)%processUntilEmpty_returns.
  split; [done|]. exists n. split_and!; [done | apply batches_fired |].
  rewrite batches_fired. destruct n as [|n].
  - simpl in Hempty. rewrite Hempty. by exists [].
  - exists (concat ((λ i, eventQueueHead (batches i st)) <$> seq 1 n)).
    by rewrite <- cons_seq.
Qed.

End QueueMore.

(** ** Registration keeps what is registered *)

Section RegistryMore.
Context {World : Type}.
Implicit Types (st : State World) (Args : list ArgType) (name : string).

Lemma allocate_and_store_effect Args name st :
  ∃ st',
    EventRegistry.allocate_and_store Args name st = Returns (length (heap st)) st'
    ∧ heap st' = heap st ++ [new_collection (SubscriberCollectionDecay Args)]
    ∧ subscribersByEventName st'
      = <[name := length (heap st)]> (subscribersByEventName st)
    ∧ eventQueueHead st' = eventQueueHead st
    ∧ world st' = world st ∧ log st' = log st.
Proof. by eexists. Qed.

Lemma registerEvent_returns Args name st hc st' :
  EventRegistry.registerEvent Args name st = Returns hc st' →
  subscribersByEventName st !! name = None
  ∧ EventRegistry.allocate_and_store Args name st = Returns hc st'.
Proof.
  unfold EventRegistry.registerEvent.
  by destruct (subscribersByEventName st !! name).
Qed.

Lemma getOrRegister_returns Args name st hc st' :
  EventRegistry.getOrRegister Args name st = Returns hc st' →
  (subscribersByEventName st !! name = Some hc ∧ st' = st
   ∧ argTypes (deref st hc) = SubscriberCollectionDecay Args)
  ∨ (subscribersByEventName st !! name = None
     ∧ EventRegistry.allocate_and_store Args name st = Returns hc st').
Proof.
  unfold EventRegistry.getOrRegister, EventRegistry.dynamic_cast.
  destruct (subscribersByEventName st !! name) as [hcBase|]; [|by right].
  case_decide; [|done]. intros [= <- <-]. by left.
Qed.

Lemma deref_old_after_alloc Args name st hc st' p :
  EventRegistry.allocate_and_store Args name st = Returns hc st' →
  (p < length (heap st))%nat → deref st' p = deref st p.
Proof.
  destruct (allocate_and_store_effect Args name st) as (st1 & -> & Hh & _).
  intros [= <- <-] Hp. unfold deref. by rewrite Hh, lookup_app_l.
Qed.

(** What a fresh registration does to the registry. *)
Lemma allocate_and_store_keeps Args name st hc st' :
  subscribersByEventName st !! name = None →
  EventRegistry.allocate_and_store Args name st = Returns hc st' →
  registry_wf st →
  registry_wf st'
  ∧ (registry_inj st → registry_inj st')
  ∧ (∀ name' hc', subscribersByEventName st !! name' = Some hc' →
       subscribersByEventName st' !! name' = Some hc'
       ∧ deref st' hc' = deref st hc').
Proof.
  intros Hnone Halloc Hwf. pose proof Halloc as Halloc'.
  destruct (allocate_and_store_effect Args name st)
    as (st1 & Heq & Hh & Hm & _).
  rewrite Heq in Halloc. injection Halloc as <- <-.
  split_and!.
  - intros name' hc'. rewrite Hm, Hh, length_app. simpl.
    destruct (decide (name = name')) as [<-|Hne].
    + rewrite lookup_insert_eq. intros [= <-]. lia.
    + rewrite lookup_insert_ne by done. intros H%Hwf. lia.
  - intros Hinj name1 name2 hc'. rewrite Hm.
    destruct (decide (name = name1)) as [<-|Hne1];
      destruct (decide (name = name2)) as [<-|Hne2];
      rewrite ?lookup_insert_eq, ?lookup_insert_ne by done; try done.
    + intros [= <-] H%Hwf. lia.
    + intros H%Hwf [= <-]. lia.
    + apply Hinj.
  - intros name' hc' Hhc'. split.
    + rewrite Hm. rewrite lookup_insert_ne; [done|]. congruence.
    + eapply deref_old_after_alloc; [done|]. by eapply Hwf.
Qed.

(** X6.  [getOrRegister] on an unknown name creates an empty collection of
    the decayed signature at a fresh address and binds the name to it,
    leaving every other name, every existing collection, the queue and the
    log as they were.  When it returns, a second call with the same arguments
    returns the same collection and changes nothing, and the typed and
    untyped lookups and [hasRegisteredEvent] find that collection.  When it
    throws, the name was bound to a collection of another signature and the
    state is unchanged. *)
Theorem getOrRegister_spec Args name st :
  (subscribersByEventName st !! name = None →
   ∃ st',
     EventRegistry.getOrRegister Args name st = Returns (length (heap st)) st'
     ∧ registered_with st' name (length (heap st)) Args
     ∧ handlers (deref st' (length (heap st))) = []
     ∧ (∀ name', name' ≠ name →
          subscribersByEventName st' !! name' = subscribersByEventName st !! name')
     ∧ (∀ p, (p < length (heap st))%nat → deref st' p = deref st p)
     ∧ eventQueueHead st' = eventQueueHead st ∧ log st' = log st)
  ∧ (∀ hc st',
       EventRegistry.getOrRegister Args name st = Returns hc st' →
       EventRegistry.getOrRegister Args name st' = Returns hc st'
       ∧ EventRegistry.getSubscribers Args name st' = Returns (Some hc) st'
       ∧ EventRegistry.getSubscribersBase name st' = Some hc
       ∧ EventRegistry.hasRegisteredEvent Args name st' = true)
  ∧ (∀ ex st',
       EventRegistry.getOrRegister Args name st = Throws ex st' →
       st' = st
       ∧ ∃ hc, subscribersByEventName st !! name = Some hc
               ∧ argTypes (deref st hc) ≠ SubscriberCollectionDecay Args
               ∧ ex = invalid_argument
                        (ArgumentTypesMismatch name (argTypes (deref st hc)) Args)).
Proof.
  split_and!.
  - intros Hnone.
    destruct (allocate_and_store_effect Args name st)
      as (st' & Heq & Hh & Hm & Hq & _ & Hl).
    exists st'. unfold EventRegistry.getOrRegister. rewrite Hnone.
    destruct (allocate_and_store_registers _ _ _ _ _ Heq) as [Hreg _].
    split_and!; try done.
    + unfold deref. by rewrite Hh, lookup_app_r, Nat.sub_diag by lia.
    + intros name' Hne. rewrite Hm. by rewrite lookup_insert_ne.
    + intros p Hp. by eapply deref_old_after_alloc.
  - intros hc st' Hret. apply getOrRegister_registers in Hret as Hreg.
    pose proof Hreg as [Hm Ht].
    unfold EventRegistry.getOrRegister, EventRegistry.getSubscribers,
      EventRegistry.hasRegisteredEvent, EventRegistry.getSubscribersBase.
    by rewrite Hm, dynamic_cast_Some.
  - intros ex st'.
    unfold EventRegistry.getOrRegister, EventRegistry.dynamic_cast.
    destruct (subscribersByEventName st !! name) as [hcBase|]; [|done].
    case_decide; [done|]. intros [= <- <-]. split; [done|]. by exists hcBase.
Qed.

(** X7.  A registration never rebinds, removes or empties what is
    registered: after a [registerEvent] or a [getOrRegister] that returned,
    every name that was bound is bound to the same collection, whose
    signature and subscribers are as before; every bound collection is
    allocated, and no collection is bound to two names, if that was so
    before. *)
Theorem registration_keeps_bindings Args name st hc st' :
  registry_wf st →
  EventRegistry.registerEvent Args name st = Returns hc st'
  ∨ EventRegistry.getOrRegister Args name st = Returns hc st' →
  registry_wf st'
  ∧ (registry_inj st → registry_inj st')
  ∧ (∀ name' hc', subscribersByEventName st !! name' = Some hc' →
       subscribersByEventName st' !! name' = Some hc'
       ∧ deref st' hc' = deref st hc').
Proof.
  intros Hwf [Hret|Hret].
  - apply registerEvent_returns in Hret as [Hnone Halloc].
    by eapply allocate_and_store_keeps.
  - apply getOrRegister_returns in Hret as [(_ & -> & _)|[Hnone Halloc]].
    + by split_and!.
    + by eapply allocate_and_store_keeps.
Qed.

End RegistryMore.

(** ** Subscribers of one collection *)

Section SubscribersMore.
Context {World : Type}.
Implicit Types (st : State World) (p : ptr) (s : Subscriber World)
  (pre post hs : list (Subscriber World)) (fs : list (Handler World)).

Lemma numbered_lookup fs : ∀ c (i : nat),
  numbered c fs !! i = mkSubscriber (c + Z.of_nat i) <$> fs !! i.
Proof.
  induction fs as [|f fs IH]; intros c [|i]; try done.
  - simpl. by rewrite Z.add_0_r.
  - rewrite Nat2Z.inj_succ. cbn [numbered].
    change ((mkSubscriber c f :: numbered (c + 1) fs) !! S i)
      with (numbered (c + 1) fs !! i).
    change ((f :: fs) !! S i) with (fs !! i).
    rewrite IH. do 2 f_equal. lia.
Qed.

Lemma numbered_length fs c : length (numbered c fs) = length fs.
Proof. revert c. induction fs as [|f fs IH]; intros c; simpl; [done|]. by rewrite IH. Qed.

Lemma numbered_ids fs : ∀ c s,
  s ∈ numbered c fs → c ≤ sub_id s < c + Z.of_nat (length fs).
Proof.
  induction fs as [|f fs IH]; intros c s; simpl.
  - by intros ?%elem_of_nil.
  - rewrite elem_of_cons. intros [->|Hs]; simpl; [lia|].
    apply IH in Hs. lia.
Qed.

Lemma addSubscriber_length p (f : Handler World) st :
  length (heap (Collection.addSubscriber p f st).2) = length (heap st).
Proof. rewrite addSubscriber_state. simpl. by rewrite length_insert. Qed.

(** The collection after a run of [addSubscriber] calls that does not take
    the counter to its bound. *)
Lemma addSubscriber_all_deref fs : ∀ p st,
  (p < length (heap st))%nat →
  0 ≤ newIdCounter (deref st p) →
  newIdCounter (deref st p) + Z.of_nat (length fs) ≤ UINT_MAX →
  deref (addSubscriber_all p fs st) p
  = mkCollection (argTypes (deref st p))
      (handlers (deref st p) ++ numbered (newIdCounter (deref st p)) fs)
      (newIdCounter (deref st p) + Z.of_nat (length fs)).
Proof.
  induction fs as [|f fs IH]; intros p st Hp Hc Hbound.
  - simpl. rewrite app_nil_r, Z.add_0_r. by destruct (deref st p).
  - cbn [length] in Hbound. rewrite Nat2Z.inj_succ in Hbound.
    assert (Hd : deref (Collection.addSubscriber p f st).2 p
                 = mkCollection (argTypes (deref st p))
                     (handlers (deref st p)
                      ++ [mkSubscriber (newIdCounter (deref st p)) f])
                     (newIdCounter (deref st p) + 1)).
    { rewrite addSubscriber_state, deref_store_eq by done.
      unfold uint_wrap, UINT_MAX in *. by rewrite Z.mod_small by lia. }
    change (addSubscriber_all p (f :: fs) st)
      with (addSubscriber_all p fs (Collection.addSubscriber p f st).2).
    rewrite IH; rewrite ?Hd, ?addSubscriber_length; cbn [argTypes handlers newIdCounter];
      [|done|lia|lia].
    cbn [length numbered]. rewrite Nat2Z.inj_succ, <- app_assoc. simpl.
    f_equal. lia.
Qed.

(** X8.  Ids are handed out in the order of subscription: when the handlers
    [fs] are added to a collection whose counter is [c], and [c] plus their
    number does not exceed [UINT_MAX], the subscribers that were there keep
    their places, the [i]-th new one follows them with id [c + i], the
    handler count grows by the number of handlers added, the counter ends at
    [c] plus that number, and the ids stay below the counter if they were. *)
Theorem addSubscriber_all_ids p fs st :
  (p < length (heap st))%nat →
  0 ≤ newIdCounter (deref st p) →
  newIdCounter (deref st p) + Z.of_nat (length fs) ≤ UINT_MAX →
  let c := newIdCounter (deref st p) in
  let old := handlers (deref st p) in
  let st' := addSubscriber_all p fs st in
  (∀ i, (i < length old)%nat → handlers (deref st' p) !! i = old !! i)
  ∧ (∀ (i : nat) f, fs !! i = Some f →
       handlers (deref st' p) !! (length old + i)%nat
       = Some (mkSubscriber (c + Z.of_nat i) f))
  ∧ Collection.getHandlerCount p st'
    = (Collection.getHandlerCount p st + length fs)%nat
  ∧ newIdCounter (deref st' p) = c + Z.of_nat (length fs)
  ∧ argTypes (deref st' p) = argTypes (deref st p)
  ∧ (ids_below_counter (deref st p) → ids_below_counter (deref st' p)).
Proof.
  intros Hp Hc Hbound. cbv zeta. unfold Collection.getHandlerCount.
  rewrite (addSubscriber_all_deref fs p st Hp Hc Hbound). simpl.
  split_and!; try done.
  - intros i Hi. by rewrite lookup_app_l.
  - intros i f Hf. rewrite lookup_app_r by lia.
    replace (length (handlers (deref st p)) + i - length (handlers (deref st p)))%nat
      with i by lia.
    by rewrite numbered_lookup, Hf.
  - by rewrite length_app, numbered_length.
  - intros Hbelow s. simpl. rewrite elem_of_app. intros [Hs|Hs].
    + apply Hbelow in Hs. lia.
    + apply numbered_ids in Hs. lia.
Qed.

(** X9.  [removeHandler] erases the first subscriber that has the given id
    and no other: an id that no subscriber has leaves the whole state as it
    is; otherwise the subscribers before and after the first match keep their
    order (a later subscriber with the same id stays), the handler count
    drops by one, and the signature and the id counter are unchanged. *)
Theorem removeHandler_first p i st :
  (i ∉ sub_id <$> handlers (deref st p) → Collection.removeHandler p i st = st)
  ∧ (∀ pre s post,
       (p < length (heap st))%nat →
       handlers (deref st p) = pre ++ s :: post →
       sub_id s = i → i ∉ sub_id <$> pre →
       let st' := Collection.removeHandler p i st in
       handlers (deref st' p) = pre ++ post
       ∧ S (Collection.getHandlerCount p st') = Collection.getHandlerCount p st
       ∧ argTypes (deref st' p) = argTypes (deref st p)
       ∧ newIdCounter (deref st' p) = newIdCounter (deref st p)
       ∧ (∀ q, q ≠ p → deref st' q = deref st q)).
Proof.
  split.
  - apply removeHandler_absent.
  - intros pre s post Hp Hhs Hs Hpre. cbv zeta.
    unfold Collection.removeHandler, Collection.getHandlerCount.
    rewrite deref_store_eq by done. simpl.
    rewrite Hhs, erase_first_first by done.
    split_and!; try done.
    + rewrite !length_app. simpl. lia.
    + intros q Hq. by apply deref_store_ne.
Qed.

(** X10.  Scoped ownership.  Let the id counter of a collection not hold the
    id of one of its subscribers (so it is until the counter wraps).  When a
    [ScopedSubscription] takes the handle that [addSubscriber] returned and
    is destroyed, the collection has the subscribers it had before, in the
    same order, and no other collection has changed; a [call] in between
    invokes the added subscriber after all the others, applying its function
    to the client state they left; a [call] afterwards invokes the others
    only and leaves the client state that a [call] before the subscription
    would have left. *)
Theorem scoped_subscription_round_trip p (f : Handler World) st :
  (p < length (heap st))%nat →
  newIdCounter (deref st p) ∉ sub_id <$> handlers (deref st p) →
  let h := (Collection.addSubscriber p f st).1 in
  let st1 := (Collection.addSubscriber p f st).2 in
  let st2 := destroy h st1 in
  let old := handlers (deref st p) in
  handlers (deref st2 p) = old
  ∧ (∀ q, q ≠ p → deref st2 q = deref st q)
  ∧ (∀ args, log (Collection.call p args st1)
             = log st ++ invocations p args old
               ++ [Invoked p (subscriberId h) args])
  ∧ (∀ args, world (Collection.call p args st1)
             = (f args (foldl (λ w x, (function x args w).1) (world st) old)).1)
  ∧ (∀ args, log (Collection.call p args st2) = log st ++ invocations p args old)
  ∧ (∀ args, world (Collection.call p args st2)
             = world (Collection.call p args st)).
Proof.
  intros Hp Hfresh. cbv zeta.
  pose proof (addSubscriber_refers p f st Hp Hfresh) as Href.
  destruct (removeHandler_present _ _ _ _ _ _ Href)
    as (Hd & Hother & _ & _ & _ & Hw & Hl).
  unfold destroy. rewrite (unsubscribe_refers _ _ _ _ _ _ Href). cbn [snd].
  cbn [sub_id] in *. rewrite app_nil_r in Hd.
  assert (Hl1 : log (Collection.addSubscriber p f st).2 = log st) by done.
  assert (Hw1 : world (Collection.addSubscriber p f st).2 = world st) by done.
  assert (Hh1 : handlers (deref (Collection.addSubscriber p f st).2 p)
                = handlers (deref st p) ++ [mkSubscriber (newIdCounter (deref st p)) f])
    by apply Href.
  split_and!.
  - by rewrite Hd.
  - intros q Hq. rewrite Hother by done.
    rewrite addSubscriber_state. by apply deref_store_ne.
  - intros args.
    destruct (call_spec p args (Collection.addSubscriber p f st).2) as (Hlog & _).
    rewrite Hlog, Hl1, Hh1. unfold invocations. by rewrite fmap_app.
  - intros args.
    destruct (call_spec p args (Collection.addSubscriber p f st).2)
      as (_ & _ & Hworld & _).
    rewrite Hworld, Hw1, Hh1, requested_by_world, foldl_app. done.
  - intros args.
    destruct (call_spec p args
                (Collection.removeHandler p (newIdCounter (deref st p))
                   (Collection.addSubscriber p f st).2)) as (Hlog & _).
    by rewrite Hlog, Hl, Hl1, Hd.
  - intros args.
    destruct (call_spec p args
                (Collection.removeHandler p (newIdCounter (deref st p))
                   (Collection.addSubscriber p f st).2)) as (_ & _ & Hworld & _).
    destruct (call_spec p args st) as (_ & _ & Hworld0 & _).
    by rewrite Hworld, Hworld0, Hw, Hw1, Hd.
Qed.

(** X11.  Moving a [ScopedSubscription] of [EventSubscription.h] transfers
    the ownership and nothing else.  Move construction leaves the state
    untouched; move assignment unsubscribes what the target owned and does
    nothing more to the state.  In both cases the target ends up with the
    handle the source held, and the source is empty, so that destroying it
    afterwards changes nothing. *)
Theorem ScopedSubscription_move (this other : SubscriptionHandle) st :
  EventSubscription.move_construct other st
  = (other, EventSubscription.clear other, st)
  ∧ EventSubscription.move_assign this other st
    = (other, EventSubscription.clear other, (unsubscribe this st).2)
  ∧ (subscriberCollection this = None →
     EventSubscription.move_assign this other st
     = (other, EventSubscription.clear other, st))
  ∧ (∀ st', destroy (EventSubscription.clear other) st' = st').
Proof.
  assert (Hmove : EventSubscription.move_assign this other st
                  = (other, EventSubscription.clear other, (unsubscribe this st).2)).
  { unfold EventSubscription.move_assign, EventSubscription.release, assign.
    destruct (unsubscribe this st) as [this1 st1] eqn:E. cbn [snd].
    assert (Hnone : subscriberCollection this1 = None).
    { unfold unsubscribe in E.
      destruct (subscriberCollection this) eqn:Hc; by injection E as <- <-. }
    unfold unsubscribe. by rewrite Hnone. }
  split_and!; try done.
  intros Hnone. rewrite Hmove. unfold unsubscribe. by rewrite Hnone.
Qed.

(** X21.  The id counter is an [unsigned int] and wraps: a subscription
    made when the counter is [UINT_MAX] gets that id and sets the counter
    back to [0].  When the counter has come round to the id of a subscriber
    [s] that is still subscribed, the new handle holds the id of [s], and
    unsubscribing the new handle removes [s], the first subscriber with that
    id, and leaves the new subscriber in the collection. *)
Theorem id_counter_wraps p (f : Handler World) st :
  (p < length (heap st))%nat →
  let h := (Collection.addSubscriber p f st).1 in
  let st1 := (Collection.addSubscriber p f st).2 in
  (newIdCounter (deref st p) = UINT_MAX →
   subscriberId h = UINT_MAX ∧ newIdCounter (deref st1 p) = 0)
  ∧ (∀ pre s post,
       handlers (deref st p) = pre ++ s :: post →
       sub_id s = newIdCounter (deref st p) →
       newIdCounter (deref st p) ∉ sub_id <$> pre →
       subscriberId h = sub_id s
       ∧ handlers (deref st1 p) = pre ++ s :: post ++ [mkSubscriber (sub_id s) f]
       ∧ handlers (deref (unsubscribe h st1).2 p)
         = pre ++ post ++ [mkSubscriber (sub_id s) f]).
Proof.
  intros Hp. cbv zeta.
  assert (Hd : deref (Collection.addSubscriber p f st).2 p
               = mkCollection (argTypes (deref st p))
                   (handlers (deref st p)
                    ++ [mkSubscriber (newIdCounter (deref st p)) f])
                   (uint_wrap (newIdCounter (deref st p) + 1))).
  { rewrite addSubscriber_state. by apply deref_store_eq. }
  assert (Hlen : (p < length (heap (Collection.addSubscriber p f st).2))%nat).
  { rewrite addSubscriber_state. unfold store, set_heap. cbn [heap].
    by rewrite length_insert. }
  split.
  - intros Hmax. split; [exact Hmax|].
    rewrite Hd. cbn [newIdCounter]. by rewrite Hmax.
  - intros pre s post Hhs Hid Hpre.
    split_and!.
    + by rewrite Hid.
    + rewrite Hd. cbn [handlers]. rewrite Hhs, Hid.
      by rewrite <- app_assoc.
    + assert (Hh : (Collection.addSubscriber p f st).1
                   = mkHandle (Some p) (newIdCounter (deref st p))) by done.
      rewrite Hh. unfold unsubscribe. cbn [subscriberCollection subscriberId snd].
      unfold Collection.removeHandler.
      rewrite deref_store_eq by exact Hlen.
      cbn [handlers]. rewrite Hd. cbn [handlers]. rewrite Hhs.
      rewrite <- app_assoc. cbn [app].
      rewrite (erase_first_first _ pre s) by done.
      by rewrite Hid.
Qed.

End SubscribersMore.

(** ** Subscribing, publishing and calling through the facade *)

Section FacadeMore.
Context {World : Type}.
Implicit Types (st : State World) (Args : list ArgType) (name : string)
  (args : list Value) (p : ptr).

(** The collection that [getOrRegister] returns is allocated. *)
Lemma getOrRegister_allocated Args name st hc st' :
  registry_wf st →
  EventRegistry.getOrRegister Args name st = Returns hc st' →
  (hc < length (heap st'))%nat ∧ log st' = log st
  ∧ eventQueueHead st' = eventQueueHead st
  ∧ (∀ hc0, subscribersByEventName st !! name = Some hc0 →
            hc0 = hc ∧ deref st' hc = deref st hc)
  ∧ (subscribersByEventName st !! name = None → handlers (deref st' hc) = []).
Proof.
  intros Hwf Hret.
  apply getOrRegister_returns in Hret as [(Hm & -> & _)|[Hnone Halloc]].
  - split_and!; try done.
    + by eapply Hwf.
    + intros hc0. rewrite Hm. by intros [= ->].
    + by rewrite Hm.
  - destruct (allocate_and_store_effect Args name st)
      as (st1 & Heq & Hh & _ & Hq & _ & Hl).
    rewrite Heq in Halloc. injection Halloc as <- <-.
    split_and!; try done.
    + rewrite Hh, length_app. simpl. lia.
    + by rewrite Hnone.
    + intros _. unfold deref. by rewrite Hh, lookup_app_r, Nat.sub_diag by lia.
Qed.

Lemma getOrRegister_world Args name st hc st' :
  EventRegistry.getOrRegister Args name st = Returns hc st' →
  world st' = world st.
Proof.
  intros Hret.
  apply getOrRegister_returns in Hret as [(_ & -> & _)|[_ Halloc]]; [done|].
  destruct (allocate_and_store_effect Args name st) as (st1 & Heq & _ & _ & _ & Hw & _).
  rewrite Heq in Halloc. by injection Halloc as <- <-.
Qed.

(** Firing the only event of a queue. *)
Lemma process_singleton st (e : QueuedEvent.t) :
  eventQueueHead st = [e] →
  let hs := handlers (deref st (QueuedEvent.handlerRef e)) in
  (EventQueue.process st).1 = true
  ∧ log (EventQueue.process st).2 = log st ++ event_trace st e
  ∧ eventQueueHead (EventQueue.process st).2
    = (requested_by hs (QueuedEvent.args e) (world st)).2
  ∧ world (EventQueue.process st).2
    = (requested_by hs (QueuedEvent.args e) (world st)).1
  ∧ same_objects st (EventQueue.process st).2.
Proof.
  intros Hq. cbv zeta.
  rewrite process_flag, process_log, process_queue, process_world, Hq.
  cbn [flat_map requested_during].
  destruct (requested_by _ _ (world st)) as [w1 evs]. simpl.
  rewrite !app_nil_r. split_and!; try done. apply process_same_objects.
Qed.

(** X12.  [subscribe] registers the topic if the name is new and appends the
    handler to the collection of the topic: the subscribers that were there
    keep their places (there is none if the name was new), and a [call] of
    the topic with the same signature afterwards returns [true] after
    invoking them in order and the new handler last, with the id that the
    returned handle holds: the function of each of them, and then the new
    one, is applied to the arguments and to the client state left by the one
    before. *)
Theorem subscribe_then_call Args name (f : Handler World) st h st' args :
  registry_wf st →
  EventSystem.subscribe Args name f st = Returns h st' →
  ∃ hc old,
    subscriberCollection h = Some hc
    ∧ registered_with st' name hc Args
    ∧ (∀ hc0, subscribersByEventName st !! name = Some hc0 →
              hc0 = hc ∧ old = handlers (deref st hc))
    ∧ (subscribersByEventName st !! name = None → old = [])
    ∧ handlers (deref st' hc) = old ++ [mkSubscriber (subscriberId h) f]
    ∧ EventSystem.call Args name args st'
      = Returns true (Collection.call hc args st')
    ∧ log (Collection.call hc args st')
      = log st ++ invocations hc args old ++ [Invoked hc (subscriberId h) args]
    ∧ world (Collection.call hc args st')
      = (f args (foldl (λ w x, (function x args w).1) (world st) old)).1.
Proof.
  intros Hwf. unfold EventSystem.subscribe.
  destruct (EventRegistry.getOrRegister Args name st) as [hc st1|] eqn:E; [|done].
  destruct (Collection.addSubscriber hc f st1) as [h0 st2] eqn:Eadd.
  intros [= <- <-].
  assert (h0 = (Collection.addSubscriber hc f st1).1) as -> by by rewrite Eadd.
  assert (st2 = (Collection.addSubscriber hc f st1).2) as -> by by rewrite Eadd.
  clear Eadd.
  pose proof (getOrRegister_registers _ _ _ _ _ E) as [Hm Ht].
  destruct (getOrRegister_allocated _ _ _ _ _ Hwf E)
    as (Hp & Hl & _ & Hold & Hnew).
  exists hc, (handlers (deref st1 hc)).
  assert (Hd : deref (Collection.addSubscriber hc f st1).2 hc
               = mkCollection (argTypes (deref st1 hc))
                   (handlers (deref st1 hc)
                    ++ [mkSubscriber (newIdCounter (deref st1 hc)) f])
                   (uint_wrap (newIdCounter (deref st1 hc) + 1))).
  { by rewrite addSubscriber_state, deref_store_eq. }
  assert (Hreg : registered_with (Collection.addSubscriber hc f st1).2 name hc Args).
  { split; [done|]. by rewrite Hd. }
  split_and!; try done.
  - intros hc0 Hhc0. destruct (Hold hc0 Hhc0) as [-> Hsame]. by rewrite Hsame.
  - by rewrite Hd.
  - unfold EventSystem.call.
    by rewrite (getSubscribers_match Args Args name _ hc Hreg eq_refl).
  - destruct (call_spec hc args (Collection.addSubscriber hc f st1).2) as (Hlog & _).
    rewrite Hlog, Hd. cbn [handlers]. unfold invocations. rewrite fmap_app.
    simpl. by rewrite <- Hl.
  - destruct (call_spec hc args (Collection.addSubscriber hc f st1).2)
      as (_ & _ & Hworld & _).
    rewrite Hworld, Hd. cbn [handlers].
    rewrite requested_by_world, foldl_app.
    assert (Hw1 : world (Collection.addSubscriber hc f st1).2 = world st1) by done.
    by rewrite Hw1, (getOrRegister_world _ _ _ _ _ E).
Qed.

(** X13.  Deferred and direct dispatch agree: on an empty queue, [publish]
    of a registered topic followed by [process] invokes the same subscribers
    with the same arguments, leaves the same client state and the same events
    enqueued by the handlers, as [call] does at once.  [publish] itself
    returns [true], makes the queue one long and runs no handler. *)
Theorem deferred_equals_direct Args name args st hc :
  eventQueueHead st = [] →
  registered_with st name hc Args →
  let st1 := EventQueue.enqueue hc args st in
  let st2 := (EventQueue.process st1).2 in
  let st3 := Collection.call hc args st in
  let hs := handlers (deref st hc) in
  EventSystem.publish Args name args st = Returns true st1
  ∧ EventSystem.call Args name args st = Returns true st3
  ∧ EventQueue.size st1 = 1%nat ∧ log st1 = log st
  ∧ (EventQueue.process st1).1 = true
  ∧ log st2 = log st ++ Fired (QueuedEvent.mk hc args) :: invocations hc args hs
  ∧ log st3 = log st ++ invocations hc args hs
  ∧ world st2 = world st3
  ∧ eventQueueHead st2 = eventQueueHead st3
  ∧ same_objects st3 st2.
Proof.
  intros Hempty Hreg. cbv zeta.
  assert (Hq1 : eventQueueHead (EventQueue.enqueue hc args st)
                = [QueuedEvent.mk hc args]).
  { unfold EventQueue.enqueue. by rewrite enqueue_tuple_queue, Hempty. }
  destruct (enqueue_tuple_same hc args st) as (Ho1 & Hl1 & Hw1).
  destruct (process_singleton _ _ Hq1) as (Hb & Hl & Hq & Hw & Ho).
  destruct (call_spec hc args st) as (Hl3 & Hq3 & Hw3 & Ho3).
  cbn [QueuedEvent.handlerRef QueuedEvent.args] in *.
  unfold EventQueue.enqueue in *.
  rewrite (same_objects_deref _ _ _ Ho1), Hw1 in Hq, Hw.
  rewrite (event_trace_same _ _ _ Ho1), Hl1 in Hl.
  unfold EventSystem.publish, EventSystem.call.
  rewrite (getSubscribers_match Args Args name st hc Hreg eq_refl).
  split_and!; try done.
  - unfold EventQueue.size. by rewrite Hq1.
  - by rewrite Hw, Hw3.
  - by rewrite Hq, Hq3, Hempty.
  - destruct Ho as [? ?], Ho1 as [? ?], Ho3 as [? ?]. split; congruence.
Qed.


End FacadeMore.

(** ** The parsers of the parameter strings *)

Section ParserMore.
Context {World : Type}.
Implicit Types (st : State World) (Args : list ObjType)
  (strings : list string) (vs : list Value).

Lemma lower_length s : String.length (lower s) = String.length s.
Proof. induction s as [|c s IH]; simpl; [done|]. by rewrite IH. Qed.

Lemma matches_from_lower value : ∀ expected,
  String.length value = String.length expected →
  ParameterValueParser.matches_from value expected = true ↔ lower value = expected.
Proof.
  induction value as [|v value IH]; intros [|e expected] Hlen; simpl in *;
    try done.
  injection Hlen as Hlen. case_bool_decide as Hv.
  - rewrite IH by done. rewrite Hv. split; [by intros -> | by intros [= ->]].
  - split; [done | by intros [= ? _]].
Qed.

(** [matches] compares the lower-cased value with [expected]. *)
Lemma matches_lower value expected :
  ParameterValueParser.matches value expected = true ↔ lower value = expected.
Proof.
  unfold ParameterValueParser.matches. case_bool_decide as Hlen.
  - split; [done|]. intros <-. by rewrite lower_length in Hlen.
  - apply matches_from_lower. by destruct (decide (String.length value
                                                   = String.length expected)).
Qed.

Lemma parse_unsupported T s :
  ParameterValueParser.valueType T = UNSUPPORTED →
  ParameterValueParser.parse T s = inl (logic_error UnsupportedParameterType).
Proof. by destruct T. Qed.

Lemma parse_supported T s ex :
  ParameterValueParser.valueType T ≠ UNSUPPORTED →
  ParameterValueParser.parse T s = inl ex → ∃ w, ex = invalid_argument w.
Proof.
  destruct T; simpl; try done; intros _.
  - repeat case_match; try done; intros [= <-]; by eexists.
  - case_match; try done; intros [= <-]; by eexists.
  - repeat case_match; try done; intros [= <-]; by eexists.
Qed.

Lemma parseArgsImpl_inr Args : ∀ strings vs,
  length strings = length Args →
  EventParametersParser.parseArgsImpl Args strings = inr vs →
  length vs = length Args
  ∧ ∀ (i : nat) T s, Args !! i = Some T → strings !! i = Some s →
      ∃ v, vs !! i = Some v ∧ ParameterValueParser.parse T s = inr v.
Proof.
  induction Args as [|T Args IH]; intros [|s strings] vs Hlen; simpl in *;
    try done.
  - intros [= <-]. split; [done|]. by intros i ? ? ?.
  - injection Hlen as Hlen.
    destruct (ParameterValueParser.parse T s) as [ex|v] eqn:Ep; [done|].
    destruct (EventParametersParser.parseArgsImpl Args strings) as [ex|vs'] eqn:Ei;
      [done|].
    intros [= <-]. destruct (IH strings vs' Hlen Ei) as [Hl Hall].
    split; [by rewrite <- Hl|].
    intros [|i] T' s'; simpl.
    + intros [= <-] [= <-]. by exists v.
    + apply Hall.
Qed.

Lemma parseArgsImpl_unsupported Args : ∀ strings,
  length strings = length Args →
  EventParametersParser.canParseArgs Args = false →
  ∃ ex, EventParametersParser.parseArgsImpl Args strings = inl ex.
Proof.
  induction Args as [|T Args IH]; intros [|s strings] Hlen; simpl in *;
    try done.
  injection Hlen as Hlen. rewrite andb_false_iff, negb_false_iff.
  intros [HT|Hrest].
  - apply bool_decide_eq_true in HT. rewrite parse_unsupported by done.
    by eexists.
  - destruct (ParameterValueParser.parse T s); [by eexists|].
    destruct (IH strings Hlen Hrest) as [ex ->]. by eexists.
Qed.

Lemma parseArgsImpl_supported Args : ∀ strings ex,
  EventParametersParser.canParseArgs Args = true →
  EventParametersParser.parseArgsImpl Args strings = inl ex →
  ∃ w, ex = invalid_argument w.
Proof.
  induction Args as [|T Args IH]; intros [|s strings] ex; simpl; try done.
  rewrite andb_true_iff, negb_true_iff. intros [HT Hrest].
  apply bool_decide_eq_false in HT.
  destruct (ParameterValueParser.parse T s) as [ex'|v] eqn:Ep.
  - intros [= <-]. by eapply parse_supported.
  - destruct (EventParametersParser.parseArgsImpl Args strings) as [ex'|vs] eqn:Ei;
      [|done].
    intros [= <-]. by eapply IH.
Qed.

Lemma canParseArgs_types Args :
  EventParametersParser.canParseArgs Args = true
  ↔ ∀ i, (i < length Args)%nat →
         EventParametersParser.getParameterType Args i ≠ UNSUPPORTED.
Proof.
  unfold EventParametersParser.getParameterType.
  induction Args as [|T Args IH]; simpl.
  - split; [intros _ i ?; lia | done].
  - rewrite andb_true_iff, negb_true_iff, bool_decide_eq_false, IH. split.
    + intros [HT Hall] [|i] Hi; simpl; [done|]. apply Hall. lia.
    + intros Hall. split.
      * apply (Hall 0%nat). lia.
      * intros i Hi. apply (Hall (S i)). lia.
Qed.

(** X15.  Arity comes first: when the number of strings differs from the
    number of parameters, [parseArgs] fails with the wrong-number error,
    whatever the strings hold, and [callEvent] and [enqueueEvent] throw it
    with the state untouched.  When [parseArgs] succeeds, the numbers agree
    and the [i]-th value of the tuple is the [i]-th string parsed at the
    [i]-th parameter type. *)
Theorem parseArgs_arity Args strings :
  (length strings ≠ length Args →
   EventParametersParser.parseArgs Args strings
   = inl (invalid_argument
            (WrongNumberOfArguments (length Args) (length strings))))
  ∧ (∀ p st, length strings ≠ length (argTypes (deref st p)) →
       ∃ ex, EventParametersParser.callEvent p strings st = Throws ex st
             ∧ EventParametersParser.enqueueEvent p strings st = Throws ex st
             ∧ ex = invalid_argument
                      (WrongNumberOfArguments (length (argTypes (deref st p)))
                         (length strings)))
  ∧ (∀ vs, EventParametersParser.parseArgs Args strings = inr vs →
       length strings = length Args ∧ length vs = length Args
       ∧ ∀ (i : nat) T s, Args !! i = Some T → strings !! i = Some s →
           ∃ v, vs !! i = Some v ∧ ParameterValueParser.parse T s = inr v).
Proof.
  split_and!.
  - intros Hlen. unfold EventParametersParser.parseArgs.
    by rewrite bool_decide_eq_true_2.
  - intros p st Hlen. eexists.
    unfold EventParametersParser.callEvent, EventParametersParser.enqueueEvent,
      EventParametersParser.parseArgs.
    by rewrite bool_decide_eq_true_2.
  - intros vs. unfold EventParametersParser.parseArgs.
    case_bool_decide as Hlen; [done|].
    assert (length strings = length Args) as Heq
      by by destruct (decide (length strings = length Args)).
    intros H. by destruct (parseArgsImpl_inr Args strings vs Heq H).
Qed.

(** X16.  [canParseArgs] is true exactly when no parameter type is
    [UNSUPPORTED].  When it is false, [parseArgs] fails on every input, so
    that no handler is ever invoked from strings; when it is true, the only
    failures are [std::invalid_argument] ones, never [std::logic_error]. *)
Theorem canParseArgs_spec Args :
  (EventParametersParser.canParseArgs Args = true
   ↔ ∀ i, (i < EventParametersParser.getParameterCount Args)%nat →
          EventParametersParser.getParameterType Args i ≠ UNSUPPORTED)
  ∧ (EventParametersParser.canParseArgs Args = false →
     ∀ strings, ∃ ex, EventParametersParser.parseArgs Args strings = inl ex)
  ∧ (EventParametersParser.canParseArgs Args = true →
     ∀ strings ex, EventParametersParser.parseArgs Args strings = inl ex →
                   ∃ w, ex = invalid_argument w).
Proof.
  split_and!.
  - apply canParseArgs_types.
  - intros Hcan strings. unfold EventParametersParser.parseArgs.
    case_bool_decide as Hlen; [by eexists|].
    apply parseArgsImpl_unsupported; [|done].
    by destruct (decide (length strings = length Args)).
  - intros Hcan strings ex. unfold EventParametersParser.parseArgs.
    case_bool_decide as Hlen.
    + intros [= <-]. by eexists.
    + by apply parseArgsImpl_supported.
Qed.

(** X17.  The boolean parser accepts exactly the spellings of "true" and
    "false" in any mix of upper and lower case: the result is [true] exactly
    when the lower-cased string is "true", [false] exactly when it is
    "false", and every other string fails with [std::invalid_argument]. *)
Theorem parse_bool_spec s :
  (ParameterValueParser.parse t_bool s = inr (VBool true) ↔ lower s = "true")
  ∧ (ParameterValueParser.parse t_bool s = inr (VBool false) ↔ lower s = "false")
  ∧ (lower s ≠ "true" → lower s ≠ "false" →
     ParameterValueParser.parse t_bool s
     = inl (invalid_argument IllegalBooleanValue)).
Proof.
  pose proof (matches_lower s "true") as Ht.
  pose proof (matches_lower s "false") as Hf.
  simpl.
  destruct (ParameterValueParser.matches s "true") eqn:Et;
    destruct (ParameterValueParser.matches s "false") eqn:Ef.
  - destruct Ht as [Ht _], Hf as [Hf _]. specialize (Ht eq_refl).
    specialize (Hf eq_refl). congruence.
  - destruct Ht as [Ht _]. specialize (Ht eq_refl). split_and!.
    + done.
    + split; [done|]. intros H. rewrite H in Ht. done.
    + done.
  - destruct Hf as [Hf _]. specialize (Hf eq_refl). split_and!.
    + split; [done|]. intros H. rewrite H in Hf. done.
    + done.
    + done.
  - split_and!.
    + split; [done|]. intros H. apply Ht in H. done.
    + split; [done|]. intros H. apply Hf in H. done.
    + done.
Qed.

(** X18.  An integral parameter of any width is parsed as an [int]: when the
    parse succeeds, the stream held a number between [INT_MIN] and [INT_MAX]
    (even for a [long] parameter), and the value handed to the handlers is
    that number converted to the parameter type, hence within the range of
    the type, and the number itself for [int] and [long]. *)
Theorem parse_integral_range k s v :
  ParameterValueParser.parse (t_integral k) s = inr v →
  ∃ r, Stream.extract_int s = Some r
       ∧ Stream.INT_MIN ≤ r ≤ Stream.INT_MAX
       ∧ v = VInt (ParameterValueParser.convert_int k r)
       ∧ IntKind_min k ≤ ParameterValueParser.convert_int k r ≤ IntKind_max k
       ∧ (k = ik_int ∨ k = ik_long → ParameterValueParser.convert_int k r = r).
Proof.
  simpl. destruct (Stream.extract_int s) as [r|] eqn:E; [|done].
  intros [= <-]. exists r.
  assert (Hr : Stream.INT_MIN ≤ r ≤ Stream.INT_MAX).
  { unfold Stream.extract_int in E.
    destruct (Stream.skipws s) as [|c s1]; [done|].
    destruct (Stream.sign (String c s1)) as [neg s2].
    destruct (Stream.digits 0 0 s2) as [[m n] rest].
    case_bool_decide; [done|].
    destruct (_ && _) eqn:Hrange; [|done]. injection E as <-.
    apply andb_true_iff in Hrange as [?%Z.leb_le ?%Z.leb_le]. done. }
  refine (conj eq_refl (conj Hr (conj eq_refl (conj _ _)))).
  - unfold Stream.INT_MIN, Stream.INT_MAX in Hr.
    destruct k; unfold IntKind_min, IntKind_max, ParameterValueParser.convert_int;
      try lia;
      match goal with
      | |- context [?a mod ?b] => pose proof (Z.mod_pos_bound a b); lia
      end.
  - by intros [->| ->].
Qed.

(** X19.  [enqueueEvent] accepts exactly what [callEvent] accepts: on the
    same strings both throw the same exception, leaving the state untouched,
    or both go on with the same tuple, which [enqueueEvent] appends to the
    queue without running a handler and [callEvent] passes to the
    subscribers at once. *)
Theorem enqueueEvent_callEvent (p : ptr) strings st :
  (∀ ex, EventParametersParser.enqueueEvent p strings st = Throws ex st
         ↔ EventParametersParser.callEvent p strings st = Throws ex st)
  ∧ ((∃ ex, EventParametersParser.callEvent p strings st = Throws ex st)
     ∨ ∃ tuple,
         EventParametersParser.parseArgs (argTypes (deref st p)) strings = inr tuple
         ∧ EventParametersParser.callEvent p strings st
           = Returns () (Collection.call_tuple p tuple st)
         ∧ EventParametersParser.enqueueEvent p strings st
           = Returns () (enqueue_tuple p tuple st)
         ∧ eventQueueHead (enqueue_tuple p tuple st)
           = eventQueueHead st ++ [QueuedEvent.mk p tuple]
         ∧ log (enqueue_tuple p tuple st) = log st).
Proof.
  unfold EventParametersParser.enqueueEvent, EventParametersParser.callEvent.
  destruct (EventParametersParser.parseArgs (argTypes (deref st p)) strings)
    as [ex0|tuple].
  - split; [done|]. left. by exists ex0.
  - split; [done|]. right. exists tuple. split_and!; try done.
    + apply enqueue_tuple_queue.
    + apply enqueue_tuple_same.
Qed.

Lemma skipws_all_space ws s :
  all_space ws = true → Stream.skipws (ws +:+ s) = Stream.skipws s.
Proof.
  induction ws as [|c ws IH]; simpl; [done|].
  rewrite andb_true_iff. intros [-> Hws]. by apply IH.
Qed.

Lemma isspace_tolower c :
  Stream.isspace c = true →
  ParameterValueParser.tolower c ≠ "t"%char
  ∧ ParameterValueParser.tolower c ≠ "f"%char.
Proof.
  unfold Stream.isspace, ParameterValueParser.tolower. intros Hc.
  assert (Hlow : (65 <=? Stream.code c) && (Stream.code c <=? 90) = false).
  { apply andb_false_iff. left. apply Z.leb_gt.
    apply orb_true_iff in Hc as [Hc|Hc].
    - apply Z.eqb_eq in Hc. lia.
    - apply andb_true_iff in Hc as [_ ?%Z.leb_le]. lia. }
  rewrite Hlow. split; intros ->; by vm_compute in Hc.
Qed.

(** X20.  Leading whitespace is skipped by the numeric parsers and by them
    only: blanks before the input do not change the result of parsing an
    integral or a floating point parameter, while a boolean parameter is
    rejected as soon as the string starts with a blank. *)
Theorem leading_whitespace ws s :
  all_space ws = true →
  Stream.extract_int (ws +:+ s) = Stream.extract_int s
  ∧ Stream.extract_double (ws +:+ s) = Stream.extract_double s
  ∧ (∀ T, ParameterValueParser.valueType T = INT
          ∨ ParameterValueParser.valueType T = DOUBLE →
          ParameterValueParser.parse T (ws +:+ s) = ParameterValueParser.parse T s)
  ∧ (ws ≠ EmptyString →
     ParameterValueParser.parse t_bool (ws +:+ s)
     = inl (invalid_argument IllegalBooleanValue)).
Proof.
  intros Hws.
  assert (Hi : Stream.extract_int (ws +:+ s) = Stream.extract_int s).
  { unfold Stream.extract_int. by rewrite skipws_all_space. }
  assert (Hd : Stream.extract_double (ws +:+ s) = Stream.extract_double s).
  { unfold Stream.extract_double. by rewrite skipws_all_space. }
  split_and!; try done.
  - intros T HT. destruct T; simpl in *; try (by destruct HT).
    + by rewrite Hi.
    + by rewrite Hd.
  - destruct ws as [|c ws]; [done|]. intros _.
    simpl in Hws. apply andb_true_iff in Hws as [Hc _].
    destruct (isspace_tolower c Hc) as [Ht Hf].
    cbn [ParameterValueParser.parse].
    destruct (ParameterValueParser.matches (String c ws +:+ s) "true") eqn:Et.
    { apply matches_lower in Et. simpl in Et. by injection Et. }
    destruct (ParameterValueParser.matches (String c ws +:+ s) "false") eqn:Ef.
    { apply matches_lower in Ef. simpl in Ef. by injection Ef. }
    done.
Qed.

End ParserMore.

(** ** The further properties at concrete inputs *)

Section MoreWitnesses.
Import Examples.

Example registry_wf_es0 : registry_wf es0.
Proof. intros name hc. unfold es0. simpl. by rewrite lookup_empty. Qed.

Example registry_wf_es1 : registry_wf es1.
Proof.
  assert (Halloc : EventRegistry.allocate_and_store [plain int_] "TestEvent" es0
                   = Returns 0%nat es1) by (vm_compute; reflexivity).
  eapply allocate_and_store_keeps; [| exact Halloc | exact registry_wf_es0].
  apply lookup_empty.
Qed.

Example registry_wf_es5 : registry_wf es5.
Proof.
  intros name hc H.
  change (subscribersByEventName es5) with (subscribersByEventName es1) in H.
  change (length (heap es5)) with (length (heap es1)).
  by apply (registry_wf_es1 name hc).
Qed.


Lemma processOne_spec_witness :
  EventQueue.processOne es3 = (false, es3)
  ∧ fired_events (log (EventQueue.processOne es4).2) = [QueuedEvent.mk 0%nat [VInt 1]]
  ∧ EventQueue.size (EventQueue.processOne es4).2 = 2%nat.
Proof.
  destruct (processOne_spec es3) as [Hempty _].
  destruct (processOne_spec es4) as [_ Hcons].
  destruct (Hcons (QueuedEvent.mk 0%nat [VInt 1])
              [QueuedEvent.mk 1%nat [VString "a"]; QueuedEvent.mk 0%nat [VInt 3]])
    as (_ & _ & Hfired & Hq & _); [by vm_compute|].
  split_and!.
  - by apply Hempty.
  - exact Hfired.
  - unfold EventQueue.size. by rewrite Hq.
Defined.

Lemma processUntilEmpty_fires_all_witness :
  eventQueueHead (batches 4 loop0) = []
  ∧ ∃ later, fired_events (log (batches 4 loop0))
             = fired_events (log loop0) ++ eventQueueHead loop0 ++ later.
Proof.
  assert (H : EventQueue.processUntilEmpty 9 loop0 = Some (batches 4 loop0))
    by (vm_compute; reflexivity).
  destruct (processUntilEmpty_fires_all 9 loop0 _ H) as (Hq & n & _ & _ & Hlater).
  split; [exact Hq | exact Hlater].
Defined.

Lemma getOrRegister_spec_witness :
  (∃ st', EventRegistry.getOrRegister [plain t_string] "StrEvent" es1
          = Returns 1%nat st')
  ∧ EventRegistry.getOrRegister [const_ref int_] "TestEvent" es1 = Returns 0%nat es1
  ∧ EventRegistry.hasRegisteredEvent [const_ref int_] "TestEvent" es1 = true.
Proof.
  destruct (getOrRegister_spec [plain t_string] "StrEvent" es1) as (Hnew & _).
  destruct (getOrRegister_spec [const_ref int_] "TestEvent" es1) as (_ & Hagain & _).
  destruct Hnew as (st' & Hret & _); [by vm_compute|].
  destruct (Hagain 0%nat es1) as (Hsame & _ & _ & Hhas); [by vm_compute|].
  split_and!; [by exists st' | exact Hsame | exact Hhas].
Defined.

Lemma registration_keeps_bindings_witness :
  let st' := state_of (EventRegistry.registerEvent [plain t_string] "StrEvent" es5) in
  registry_wf st'
  ∧ subscribersByEventName st' !! "StrEvent" = Some 1%nat
  ∧ subscribersByEventName st' !! "TestEvent" = Some 0%nat
  ∧ handlers (deref st' 0)
    = [mkSubscriber 0 counting; mkSubscriber 1 (adding 10);
       mkSubscriber 2 (adding 100)].
Proof.
  cbv zeta.
  set (st' := state_of (EventRegistry.registerEvent [plain t_string] "StrEvent" es5)).
  assert (H : EventRegistry.registerEvent [plain t_string] "StrEvent" es5
              = Returns 1%nat st') by (vm_compute; reflexivity).
  destruct (registration_keeps_bindings [plain t_string] "StrEvent" es5 1%nat st'
              registry_wf_es5 (or_introl H)) as (Hwf & _ & Hkeep).
  destruct (Hkeep "TestEvent" 0%nat) as [Hbound Hsame];
    [vm_compute; reflexivity|].
  split_and!.
  - exact Hwf.
  - vm_compute. reflexivity.
  - exact Hbound.
  - by rewrite Hsame.
Defined.

Lemma addSubscriber_all_ids_witness :
  Collection.getHandlerCount 0%nat (addSubscriber_all 0%nat [counting; counting] es2)
  = 3%nat
  ∧ newIdCounter (deref (addSubscriber_all 0%nat [counting; counting] es2) 0) = 3.
Proof.
  destruct (addSubscriber_all_ids 0%nat [counting; counting] es2)
    as (_ & _ & Hcount & Hcounter & _).
  - vm_compute. lia.
  - by vm_compute.
  - by vm_compute.
  - split; [exact Hcount | exact Hcounter].
Defined.

Lemma removeHandler_first_witness :
  let twice := store 0%nat
                 (mkCollection [int_]
                    [mkSubscriber 0 counting; mkSubscriber 1 (adding 10);
                     mkSubscriber 2 (adding 100); mkSubscriber 1 counting] 2) es1 in
  Collection.removeHandler 0%nat 5 es5 = es5
  ∧ handlers (deref (Collection.removeHandler 0%nat 1 es5) 0)
    = [mkSubscriber 0 counting; mkSubscriber 2 (adding 100)]
  ∧ handlers (deref (Collection.removeHandler 0%nat 1 twice) 0)
    = [mkSubscriber 0 counting; mkSubscriber 2 (adding 100); mkSubscriber 1 counting]
  ∧ Collection.getHandlerCount 0%nat (Collection.removeHandler 0%nat 1 twice) = 3%nat.
Proof.
  cbv zeta.
  set (twice := store 0%nat
                  (mkCollection [int_]
                     [mkSubscriber 0 counting; mkSubscriber 1 (adding 10);
                      mkSubscriber 2 (adding 100); mkSubscriber 1 counting] 2) es1).
  destruct (removeHandler_first 0%nat 5 es5) as [Habsent _].
  destruct (removeHandler_first 0%nat 1 es5) as [_ Hpresent].
  destruct (removeHandler_first 0%nat 1 twice) as [_ Htwice].
  destruct (Hpresent [mkSubscriber 0 counting] (mkSubscriber 1 (adding 10))
              [mkSubscriber 2 (adding 100)]) as (Hhs & _).
  { vm_compute. lia. }
  { reflexivity. }
  { reflexivity. }
  { simpl. rewrite not_elem_of_cons. split; [lia | apply not_elem_of_nil]. }
  destruct (Htwice [mkSubscriber 0 counting] (mkSubscriber 1 (adding 10))
              [mkSubscriber 2 (adding 100); mkSubscriber 1 counting])
    as (Hhs2 & Hcount & _).
  { vm_compute. lia. }
  { reflexivity. }
  { reflexivity. }
  { simpl. rewrite not_elem_of_cons. split; [lia | apply not_elem_of_nil]. }
  split_and!.
  - apply Habsent.
    change (handlers (deref es5 0%nat))
      with [mkSubscriber 0 counting; mkSubscriber 1 (adding 10);
            mkSubscriber 2 (adding 100)].
    simpl. rewrite !not_elem_of_cons.
    split_and!; [lia | lia | lia | apply not_elem_of_nil].
  - exact Hhs.
  - exact Hhs2.
  - change (Collection.getHandlerCount 0%nat twice) with 4%nat in Hcount.
    exact (eq_add_S _ _ Hcount).
Defined.

Lemma scoped_subscription_round_trip_witness :
  let h := (Collection.addSubscriber 0%nat (adding 1000) es5).1 in
  let st1 := (Collection.addSubscriber 0%nat (adding 1000) es5).2 in
  handlers (deref (destroy h st1) 0)
  = [mkSubscriber 0 counting; mkSubscriber 1 (adding 10); mkSubscriber 2 (adding 100)]
  ∧ log (Collection.call 0%nat [VInt 1] st1)
    = [Invoked 0%nat 0 [VInt 1]; Invoked 0%nat 1 [VInt 1]; Invoked 0%nat 2 [VInt 1];
       Invoked 0%nat 3 [VInt 1]]
  ∧ world (Collection.call 0%nat [VInt 1] st1) = 1111%nat
  ∧ log (Collection.call 0%nat [VInt 1] (destroy h st1))
    = [Invoked 0%nat 0 [VInt 1]; Invoked 0%nat 1 [VInt 1]; Invoked 0%nat 2 [VInt 1]]
  ∧ world (Collection.call 0%nat [VInt 1] (destroy h st1)) = 111%nat.
Proof.
  cbv zeta.
  destruct (scoped_subscription_round_trip 0%nat (adding 1000) es5)
    as (Hhs & _ & Hlog1 & Hworld1 & Hlog2 & Hworld2).
  - vm_compute. lia.
  - change (handlers (deref es5 0%nat))
      with [mkSubscriber 0 counting; mkSubscriber 1 (adding 10);
            mkSubscriber 2 (adding 100)].
    change (newIdCounter (deref es5 0%nat)) with 3.
    simpl. rewrite !not_elem_of_cons.
    split_and!; [lia | lia | lia | apply not_elem_of_nil].
  - split_and!.
    + exact Hhs.
    + exact (Hlog1 [VInt 1]).
    + exact (Hworld1 [VInt 1]).
    + exact (Hlog2 [VInt 1]).
    + exact (Hworld2 [VInt 1]).
Defined.

Lemma ScopedSubscription_move_witness :
  EventSubscription.move_assign empty_handle handle2 es2
  = (handle2, EventSubscription.clear handle2, es2)
  ∧ EventSubscription.move_assign handle2 empty_handle es2
    = (empty_handle, EventSubscription.clear empty_handle, (unsubscribe handle2 es2).2).
Proof.
  destruct (ScopedSubscription_move empty_handle handle2 es2) as (_ & _ & Hempty & _).
  destruct (ScopedSubscription_move handle2 empty_handle es2) as (_ & Hmove & _).
  split; [by apply Hempty | exact Hmove].
Defined.

Lemma subscribe_then_call_witness :
  let st6 := state_of (EventSystem.subscribe [plain int_] "TestEvent"
                         (adding 1000) es5) in
  let st7 := state_of (EventSystem.subscribe [plain t_string] "StrEvent"
                         (adding 5) es5) in
  handlers (deref st6 0)
  = [mkSubscriber 0 counting; mkSubscriber 1 (adding 10); mkSubscriber 2 (adding 100);
     mkSubscriber 3 (adding 1000)]
  ∧ EventSystem.call [plain int_] "TestEvent" [VInt 7] st6
    = Returns true (Collection.call 0%nat [VInt 7] st6)
  ∧ log (Collection.call 0%nat [VInt 7] st6)
    = [Invoked 0%nat 0 [VInt 7]; Invoked 0%nat 1 [VInt 7]; Invoked 0%nat 2 [VInt 7];
       Invoked 0%nat 3 [VInt 7]]
  ∧ world (Collection.call 0%nat [VInt 7] st6) = 1111%nat
  ∧ registered_with st7 "StrEvent" 1%nat [plain t_string]
  ∧ handlers (deref st7 1) = [mkSubscriber 0 (adding 5)]
  ∧ EventSystem.call [plain t_string] "StrEvent" [VString "a"] st7
    = Returns true (Collection.call 1%nat [VString "a"] st7)
  ∧ world (Collection.call 1%nat [VString "a"] st7) = 5%nat.
Proof.
  cbv zeta.
  set (st6 := state_of (EventSystem.subscribe [plain int_] "TestEvent"
                          (adding 1000) es5)).
  set (st7 := state_of (EventSystem.subscribe [plain t_string] "StrEvent"
                          (adding 5) es5)).
  assert (H6 : EventSystem.subscribe [plain int_] "TestEvent" (adding 1000) es5
               = Returns (mkHandle (Some 0%nat) 3) st6) by (vm_compute; reflexivity).
  assert (H7 : EventSystem.subscribe [plain t_string] "StrEvent" (adding 5) es5
               = Returns (mkHandle (Some 1%nat) 0) st7) by (vm_compute; reflexivity).
  destruct (subscribe_then_call [plain int_] "TestEvent" (adding 1000) es5 _ st6
              [VInt 7] registry_wf_es5 H6)
    as (hc & old & Hhc & _ & Hold & _ & Hhs & Hcall & Hlog & Hworld).
  injection Hhc as <-.
  destruct (Hold 0%nat) as [_ ->]; [vm_compute; reflexivity|].
  destruct (subscribe_then_call [plain t_string] "StrEvent" (adding 5) es5 _ st7
              [VString "a"] registry_wf_es5 H7)
    as (hc' & old' & Hhc' & Hreg' & _ & Hnew' & Hhs' & Hcall' & _ & Hworld').
  injection Hhc' as <-.
  rewrite Hnew' in Hhs', Hworld' by (vm_compute; reflexivity).
  split_and!.
  - exact Hhs.
  - exact Hcall.
  - exact Hlog.
  - exact Hworld.
  - exact Hreg'.
  - exact Hhs'.
  - exact Hcall'.
  - exact Hworld'.
Defined.

Lemma deferred_equals_direct_witness :
  EventSystem.publish [plain int_] "TestEvent" [VInt 5] es3
  = Returns true (EventQueue.enqueue 0%nat [VInt 5] es3)
  ∧ world (EventQueue.process (EventQueue.enqueue 0%nat [VInt 5] es3)).2
    = world (Collection.call 0%nat [VInt 5] es3).
Proof.
  destruct (deferred_equals_direct [plain int_] "TestEvent" [VInt 5] es3 0%nat)
    as (Hpub & _ & _ & _ & _ & _ & _ & Hw & _).
  - by vm_compute.
  - by vm_compute.
  - split; [exact Hpub | exact Hw].
Defined.


Lemma parseArgs_arity_witness :
  EventParametersParser.parseArgs [int_; double_] ["10"]
  = inl (invalid_argument (WrongNumberOfArguments 2 1))
  ∧ ∃ v, [VInt 10; VFloat 25 (-1)] !! 1%nat = Some v
         ∧ ParameterValueParser.parse double_ "2.5" = inr v.
Proof.
  destruct (parseArgs_arity (World := nat) [int_; double_] ["10"]) as (Hwrong & _).
  destruct (parseArgs_arity (World := nat) [int_; double_] ["10"; "2.5"])
    as (_ & _ & Hok).
  destruct (Hok [VInt 10; VFloat 25 (-1)]) as (_ & _ & Hall); [by vm_compute|].
  split.
  - apply Hwrong. simpl. lia.
  - by apply (Hall 1%nat double_ "2.5").
Defined.

Lemma canParseArgs_spec_witness :
  (∃ ex, EventParametersParser.parseArgs [int_; t_ptr false false char_] ["1"; "x"]
         = inl ex)
  ∧ ∀ ex, EventParametersParser.parseArgs [int_] ["ten"] = inl ex →
          ∃ w, ex = invalid_argument w.
Proof.
  destruct (canParseArgs_spec [int_; t_ptr false false char_]) as (_ & Hnever & _).
  destruct (canParseArgs_spec [int_]) as (_ & _ & Honly).
  split.
  - apply Hnever. vm_compute. reflexivity.
  - exact (Honly eq_refl ["ten"]).
Defined.

Lemma parse_bool_spec_witness :
  ParameterValueParser.parse t_bool "fAlSe" = inr (VBool false)
  ∧ ParameterValueParser.parse t_bool "yes"
    = inl (invalid_argument IllegalBooleanValue).
Proof.
  destruct (parse_bool_spec "fAlSe") as (_ & [_ Hfalse] & _).
  destruct (parse_bool_spec "yes") as (_ & _ & Hother).
  split.
  - by apply Hfalse.
  - by apply Hother.
Defined.

Lemma parse_integral_range_witness :
  ∃ r, Stream.extract_int "300" = Some r
       ∧ Stream.INT_MIN ≤ r ≤ Stream.INT_MAX
       ∧ VInt 44 = VInt (ParameterValueParser.convert_int ik_char r)
       ∧ IntKind_min ik_char ≤ ParameterValueParser.convert_int ik_char r
         ≤ IntKind_max ik_char
       ∧ (ik_char = ik_int ∨ ik_char = ik_long →
          ParameterValueParser.convert_int ik_char r = r).
Proof.
  apply (parse_integral_range ik_char "300" (VInt 44)). by vm_compute.
Defined.

Lemma leading_whitespace_witness :
  Stream.extract_int "  42" = Stream.extract_int "42"
  ∧ ParameterValueParser.parse t_bool " true"
    = inl (invalid_argument IllegalBooleanValue).
Proof.
  destruct (leading_whitespace "  " "42") as (Hi & _); [done|].
  destruct (leading_whitespace " " "true") as (_ & _ & _ & Hb); [done|].
  split; [exact Hi | by apply Hb].
Defined.

Lemma id_counter_wraps_witness :
  let st := store 0%nat (mkCollection [int_] [mkSubscriber 0 counting] UINT_MAX) es1 in
  let st0 := store 0%nat (mkCollection [int_] [mkSubscriber 0 counting] 0) es1 in
  newIdCounter (deref (Collection.addSubscriber 0%nat (republishing 0%nat 0%nat) st).2 0) = 0
  ∧ handlers
      (deref (unsubscribe (Collection.addSubscriber 0%nat (republishing 0%nat 0%nat) st0).1
                (Collection.addSubscriber 0%nat (republishing 0%nat 0%nat) st0).2).2 0)
    = [mkSubscriber 0 (republishing 0%nat 0%nat)].
Proof.
  cbv zeta.
  destruct (id_counter_wraps 0%nat (republishing 0%nat 0%nat)
              (store 0%nat (mkCollection [int_] [mkSubscriber 0 counting] UINT_MAX) es1))
    as ([_ Hwrap] & _); [vm_compute; lia | reflexivity |].
  destruct (id_counter_wraps 0%nat (republishing 0%nat 0%nat)
              (store 0%nat (mkCollection [int_] [mkSubscriber 0 counting] 0) es1))
    as (_ & Hsame); [vm_compute; lia |].
  destruct (Hsame [] (mkSubscriber 0 counting) []) as (_ & _ & Hgone).
  - reflexivity.
  - reflexivity.
  - apply not_elem_of_nil.
  - split; [exact Hwrap | exact Hgone].
Defined.

End MoreWitnesses.
